(** * Sparse matrix on an ordered singly-linked list (sparse_matrix/matrix.py)

    The Python class [SparseMatrix] keeps its non-zero elements in a chain of
    [Node] objects linked through [next] and ordered by (row, col).

    Module [Seq] embeds the class at the level of the sequence of nodes
    reachable from [head]: the chain is a [list Node] and each method is a
    function on that list.  Module [Heap] embeds the very same methods over
    an explicit store of node and matrix objects, with [next] and [head]
    references, allocation and assignment.  The facts about [Heap] relate
    every method to its counterpart in [Seq] and show which objects a call
    can touch. *)

From stdpp Require Import gmap list sorting strings.
From Stdlib Require Import ZArith Lia.
From Stdlib Require Ascii String DecimalString DecimalZ.

Local Open Scope Z_scope.

(** ** The chain as a sequence of nodes *)

Module Seq.

(** *** Data model *)

(** [class Node]: row, column and value; the [next] field is the tail of the
    list the node sits in.  Python integers are unbounded, hence [Z]. *)
Record Node := mkNode { row : Z; col : Z; value : Z }.

(** [class SparseMatrix]: the chain hanging off [self.head] and the two
    dimension attributes. *)
Record SparseMatrix := mkSparseMatrix {
  head : list Node;
  num_rows : Z;
  num_cols : Z
}.

(** [SparseMatrix(num_rows=r, num_cols=c)]: no file path, so [head] is [None]. *)
Definition SparseMatrix_new (r c : Z) : SparseMatrix :=
  {| head := []; num_rows := r; num_cols := c |}.

(** The only exception the arithmetic methods raise. *)
Inductive exception := ValueError (message : string).

(** *** Methods *)

(** Loop guard of [set_element]:
    [current.row < row or (current.row == row and current.col < col)]. *)
Definition precedes (current : Node) (r c : Z) : bool :=
  (row current <? r) || ((row current =? r) && (col current <? c)).

(** The [while] loop of [set_element] together with the relinking after it:
    nodes are skipped while they precede the target, and [new_node] is linked
    in front of the first node that does not (or at the end). *)
Fixpoint link_in (new_node : Node) (current : list Node) : list Node :=
  match current with
  | [] => [new_node]
  | n :: rest =>
      if precedes n (row new_node) (col new_node)
      then n :: link_in new_node rest
      else new_node :: n :: rest
  end.

Definition set_element (self : SparseMatrix) (r c v : Z) : SparseMatrix :=
  if v =? 0 then self
  else
    let new_node := mkNode r c v in
    match head self with
    | [] => {| head := [new_node];
               num_rows := num_rows self; num_cols := num_cols self |}
    | _ :: _ => {| head := link_in new_node (head self);
                   num_rows := num_rows self; num_cols := num_cols self |}
    end.

(** The scan of [get_element]. *)
Fixpoint scan (current : list Node) (r c : Z) : Z :=
  match current with
  | [] => 0
  | n :: rest =>
      if (row n =? r) && (col n =? c) then value n else scan rest r c
  end.

Definition get_element (self : SparseMatrix) (r c : Z) : Z :=
  scan (head self) r c.

(** First loop of [add] and [subtract]: every node of [self] goes through
    [result.set_element]. *)
Definition copy_into (result : SparseMatrix) (nodes : list Node) : SparseMatrix :=
  fold_left (fun res current =>
               set_element res (row current) (col current) (value current))
            nodes result.

(** Second loop of [add] and [subtract], with the combining operation [op]. *)
Definition combine_into (op : Z -> Z -> Z)
    (result : SparseMatrix) (nodes : list Node) : SparseMatrix :=
  fold_left (fun res current =>
               let v := get_element res (row current) (col current) in
               set_element res (row current) (col current)
                           (op v (value current)))
            nodes result.

Definition add (self other : SparseMatrix) : exception + SparseMatrix :=
  if negb (num_rows self =? num_rows other)
     || negb (num_cols self =? num_cols other)
  then inl (ValueError "Matrix dimensions must match for addition.")
  else
    let result := SparseMatrix_new (num_rows self) (num_cols self) in
    let result := copy_into result (head self) in
    let result := combine_into Z.add result (head other) in
    inr result.

Definition subtract (self other : SparseMatrix) : exception + SparseMatrix :=
  if negb (num_rows self =? num_rows other)
     || negb (num_cols self =? num_cols other)
  then inl (ValueError "Matrix dimensions must match for subtraction.")
  else
    let result := SparseMatrix_new (num_rows self) (num_cols self) in
    let result := copy_into result (head self) in
    let result := combine_into Z.sub result (head other) in
    inr result.

(** Inner loop of [multiply] for one node of [self]. *)
Definition multiply_row (current_self : Node)
    (result : SparseMatrix) (nodes : list Node) : SparseMatrix :=
  fold_left (fun res current_other =>
               if col current_self =? row current_other then
                 let existing_value :=
                   get_element res (row current_self) (col current_other) in
                 set_element res (row current_self) (col current_other)
                   (existing_value + value current_self * value current_other)
               else res)
            nodes result.

Definition multiply (self other : SparseMatrix) : exception + SparseMatrix :=
  if negb (num_cols self =? num_rows other)
  then inl (ValueError "Number of columns in first matrix must be equal to the number of rows in second matrix for multiplication.")
  else
    let result := SparseMatrix_new (num_rows self) (num_cols other) in
    let result :=
      fold_left (fun res current_self =>
                   multiply_row current_self res (head other))
                (head self) result in
    inr result.

(** The lines [display] prints and [save_to_file] writes after the header:
    one triple per node of the chain, in chain order. *)
Definition entries (self : SparseMatrix) : list (Z * Z * Z) :=
  map (fun n => (row n, col n, value n)) (head self).

(** Matrix built by the calls [set_element(r, c, v)] for the triples of [ops]
    in turn, which is also what [load_matrix] does with the entry lines. *)
Definition set_all (self : SparseMatrix) (ops : list (Z * Z * Z)) : SparseMatrix :=
  fold_left (fun m '(r, c, v) => set_element m r c v) ops self.

(** *** Vocabulary of the statements *)

(** Coordinates of a node, and the test [get_element] performs on it. *)
Definition coord (n : Node) : Z * Z := (row n, col n).

Definition at_coord (r c : Z) (n : Node) : bool := (row n =? r) && (col n =? c).

(** [m2] has the dimensions of [m1]. *)
Definition same_dims (m1 m2 : SparseMatrix) : Prop :=
  num_rows m2 = num_rows m1 /\ num_cols m2 = num_cols m1.

(** Lexicographic order on (row, col), strict and large. *)
Definition coord_lt (a b : Node) : Prop :=
  row a < row b \/ (row a = row b /\ col a < col b).

Definition coord_le (a b : Node) : Prop :=
  row a < row b \/ (row a = row b /\ col a <= col b).

(** The invariant the data model asks for: strictly increasing coordinates. *)
Definition strictly_increasing (l : list Node) : Prop :=
  StronglySorted coord_lt l.

(** What ordered insertion maintains on its own: coordinates never decrease
    along the chain, and no stored value is zero. *)
Definition ordered (l : list Node) : Prop :=
  StronglySorted coord_le l /\ Forall (fun n => value n <> 0) l.

(** No two nodes of the chain share their (row, col). *)
Definition one_per_coord (l : list Node) : Prop := NoDup (map coord l).

(** A matrix as the program builds one: created with its dimensions, then
    filled by [set_element] calls in the given order. *)
Definition matrix_of (ops : list (Z * Z * Z)) (r c : Z) : SparseMatrix :=
  set_all (SparseMatrix_new r c) ops.

End Seq.

(** ** The chain as linked objects

    The same class over a store of objects.  A [Node] object carries its
    [next] reference, a [SparseMatrix] object its [head] reference, and a
    method call takes the store and returns the store it leaves behind.  A
    reference that names no object, or a loop that outlasts the store's size,
    makes a call yield [None]; the theorems show that this never happens on
    the stores the program builds. *)

Module Heap.

(** Identity of an object. *)
Definition ref := positive.

Record Node := mkNode {
  row : Z;
  col : Z;
  value : Z;
  next : option ref
}.

Record SparseMatrix := mkSparseMatrix {
  head : option ref;
  num_rows : Z;
  num_cols : Z
}.

Record store := mkStore {
  nodes : gmap ref Node;
  matrices : gmap ref SparseMatrix
}.

(** [node.next = q]. *)
Definition set_next (a : ref) (q : option ref) (h : gmap ref Node) : gmap ref Node :=
  alter (fun n => mkNode (row n) (col n) (value n) q) a h.

(** [self.head = q]. *)
Definition set_head (m : SparseMatrix) (q : option ref) : SparseMatrix :=
  mkSparseMatrix q (num_rows m) (num_cols m).

Definition precedes (current : Node) (r c : Z) : bool :=
  (row current <? r) || ((row current =? r) && (col current <? c)).

(** The [while] loop of [set_element]; returns [(prev, current)] at exit. *)
Fixpoint advance (fuel : nat) (h : gmap ref Node) (r c : Z)
    (prev current : option ref) : option (option ref * option ref) :=
  match current with
  | None => Some (prev, None)
  | Some a =>
      match fuel with
      | O => None
      | S fuel =>
          n ← h !! a;
          if precedes n r c
          then advance fuel h r c (Some a) (next n)
          else Some (prev, current)
      end
  end.

Definition set_element (st : store) (self : ref) (r c v : Z) : option store :=
  if v =? 0 then Some st
  else
    m ← matrices st !! self;
    let new_node := fresh (dom (nodes st)) in
    let h := <[new_node := mkNode r c v None]> (nodes st) in
    match head m with
    | None =>
        Some (mkStore h (<[self := set_head m (Some new_node)]> (matrices st)))
    | Some _ =>
        '(prev, current) ← advance (size h) h r c None (head m);
        let h :=
          match prev with
          | Some p => set_next p (Some new_node) h
          | None => h
          end in
        let ms :=
          match prev with
          | Some _ => matrices st
          | None => <[self := set_head m (Some new_node)]> (matrices st)
          end in
        Some (mkStore (set_next new_node current h) ms)
    end.

(** The loop of [get_element]. *)
Fixpoint scan (fuel : nat) (h : gmap ref Node) (r c : Z)
    (current : option ref) : option Z :=
  match current with
  | None => Some 0
  | Some a =>
      match fuel with
      | O => None
      | S fuel =>
          n ← h !! a;
          if (row n =? r) && (col n =? c) then Some (value n)
          else scan fuel h r c (next n)
      end
  end.

(** [get_element] assigns to nothing but its local [current]: the store it
    leaves is the store it was given. *)
Definition get_element (st : store) (self : ref) (r c : Z)
    : option (Z * store) :=
  m ← matrices st !! self;
  v ← scan (size (nodes st)) (nodes st) r c (head m);
  Some (v, st).

(** [SparseMatrix(num_rows=r, num_cols=c)]: a new matrix object. *)
Definition SparseMatrix_new (st : store) (r c : Z) : ref * store :=
  let result := fresh (dom (matrices st)) in
  (result,
   mkStore (nodes st) (<[result := mkSparseMatrix None r c]> (matrices st))).

(** First loop of [add] and [subtract].  [current.next] is read after the
    call to [result.set_element], from the store that call left. *)
Fixpoint copy_loop (fuel : nat) (st : store) (result : ref)
    (current : option ref) : option store :=
  match current with
  | None => Some st
  | Some a =>
      match fuel with
      | O => None
      | S fuel =>
          n ← nodes st !! a;
          st ← set_element st result (row n) (col n) (value n);
          n ← nodes st !! a;
          copy_loop fuel st result (next n)
      end
  end.

(** Second loop of [add] and [subtract]. *)
Fixpoint combine_loop (op : Z -> Z -> Z) (fuel : nat) (st : store)
    (result : ref) (current : option ref) : option store :=
  match current with
  | None => Some st
  | Some a =>
      match fuel with
      | O => None
      | S fuel =>
          n ← nodes st !! a;
          '(v, st) ← get_element st result (row n) (col n);
          st ← set_element st result (row n) (col n) (op v (value n));
          n ← nodes st !! a;
          combine_loop op fuel st result (next n)
      end
  end.

Definition add_sub (op : Z -> Z -> Z) (message : string)
    (st : store) (self other : ref)
    : option ((Seq.exception + ref) * store) :=
  a ← matrices st !! self;
  b ← matrices st !! other;
  if negb (num_rows a =? num_rows b) || negb (num_cols a =? num_cols b)
  then Some (inl (Seq.ValueError message), st)
  else
    let fuel := size (nodes st) in
    let '(result, st) := SparseMatrix_new st (num_rows a) (num_cols a) in
    a ← matrices st !! self;
    st ← copy_loop fuel st result (head a);
    b ← matrices st !! other;
    st ← combine_loop op fuel st result (head b);
    Some (inr result, st).

Definition add : store -> ref -> ref -> option ((Seq.exception + ref) * store) :=
  add_sub Z.add "Matrix dimensions must match for addition.".

Definition subtract : store -> ref -> ref -> option ((Seq.exception + ref) * store) :=
  add_sub Z.sub "Matrix dimensions must match for subtraction.".

(** Inner loop of [multiply]; the fields of [current_self] are read from the
    store at every turn. *)
Fixpoint multiply_inner (fuel : nat) (st : store) (result : ref)
    (current_self : ref) (current_other : option ref) : option store :=
  match current_other with
  | None => Some st
  | Some b =>
      match fuel with
      | O => None
      | S fuel =>
          na ← nodes st !! current_self;
          nb ← nodes st !! b;
          st ← (if col na =? row nb then
                  '(existing_value, st) ←
                    get_element st result (row na) (col nb);
                  set_element st result (row na) (col nb)
                    (existing_value + value na * value nb)
                else Some st);
          nb ← nodes st !! b;
          multiply_inner fuel st result current_self (next nb)
      end
  end.

Fixpoint multiply_outer (fuel fuel_inner : nat) (st : store)
    (result other : ref) (current_self : option ref) : option store :=
  match current_self with
  | None => Some st
  | Some a =>
      match fuel with
      | O => None
      | S fuel =>
          b ← matrices st !! other;
          st ← multiply_inner fuel_inner st result a (head b);
          na ← nodes st !! a;
          multiply_outer fuel fuel_inner st result other (next na)
      end
  end.

Definition multiply (st : store) (self other : ref)
    : option ((Seq.exception + ref) * store) :=
  a ← matrices st !! self;
  b ← matrices st !! other;
  if negb (num_cols a =? num_rows b)
  then Some (inl (Seq.ValueError "Number of columns in first matrix must be equal to the number of rows in second matrix for multiplication."), st)
  else
    let fuel := size (nodes st) in
    let '(result, st) := SparseMatrix_new st (num_rows a) (num_cols b) in
    a ← matrices st !! self;
    st ← multiply_outer fuel fuel st result other (head a);
    Some (inr result, st).

(** *** Vocabulary of the statements *)

(** What a node object stands for at the sequence level. *)
Definition abs (n : Node) : Seq.Node :=
  Seq.mkNode (row n) (col n) (value n).

(** [lseg h p q ls xs]: following [next] from [p] visits the objects [ls],
    which stand for [xs], and then arrives at [q]. *)
Inductive lseg (h : gmap ref Node)
  : option ref -> option ref -> list ref -> list Seq.Node -> Prop :=
| lseg_nil p : lseg h p p [] []
| lseg_cons a n q ls xs :
    h !! a = Some n -> lseg h (next n) q ls xs ->
    lseg h (Some a) q (a :: ls) (abs n :: xs).

(** A chain is a segment that ends in [None]. *)
Definition chain (h : gmap ref Node) (p : option ref)
    (ls : list ref) (xs : list Seq.Node) : Prop :=
  lseg h p None ls xs.

(** The matrix object [self] of the store stands for [M], its nodes being
    the objects [ls]. *)
Definition rep (st : store) (self : ref) (ls : list ref)
    (M : Seq.SparseMatrix) : Prop :=
  exists m,
    matrices st !! self = Some m /\
    chain (nodes st) (head m) ls (Seq.head M) /\
    num_rows m = Seq.num_rows M /\ num_cols m = Seq.num_cols M.

(** What one call [self.set_element(r, c, v)] does to the store. *)
Record set_element_effect (st : store) (self : ref) (ls : list ref)
    (v : Z) (st' : store) (ls' : list ref) : Prop := {
  (* a zero value changes nothing at all *)
  effect_zero : v = 0 -> st' = st /\ ls' = ls;
  (* a non-zero value creates exactly one node object and links it in
     between two parts of the old chain *)
  effect_link : v <> 0 ->
    exists l1 l2,
      ls = l1 ++ l2 /\ ls' = l1 ++ fresh (dom (nodes st)) :: l2 /\
      dom (nodes st') = {[fresh (dom (nodes st))]} ∪ dom (nodes st);
  (* node objects outside the chain of [self] are left as they are *)
  effect_frame : forall a,
    a ∈ dom (nodes st) -> a ∉ ls -> nodes st' !! a = nodes st !! a;
  (* every node object keeps its row, column and value *)
  effect_payload : forall a n,
    nodes st !! a = Some n ->
    exists n', nodes st' !! a = Some n' /\ abs n' = abs n;
  (* the other matrix objects are left as they are *)
  effect_matrices : forall s,
    s ≠ self -> matrices st' !! s = matrices st !! s;
  effect_dom_matrices : dom (matrices st') = dom (matrices st)
}.

(** While an arithmetic method fills [result]: the store [st0] it was called
    on is still there, object for object, and the chain [ls] of the result is
    made of objects created since. *)
Record building (st0 : store) (result : ref) (st : store)
    (ls : list ref) (R : Seq.SparseMatrix) : Prop := {
  building_nodes : nodes st0 ⊆ nodes st;
  building_matrices : matrices st0 ⊆ matrices st;
  building_rep : rep st result ls R;
  building_new : forall a, a ∈ ls -> a ∉ dom (nodes st0);
  building_result : result ∉ dom (matrices st0)
}.

(** A method called on [st] returned [out] and left [st']; at the sequence
    level the same call yields [spec]. *)
Definition returns (st : store) (out : Seq.exception + ref) (st' : store)
    (spec : Seq.exception + Seq.SparseMatrix) : Prop :=
  nodes st ⊆ nodes st' /\ matrices st ⊆ matrices st' /\
  match spec, out with
  | inl e, inl e' => e' = e /\ st' = st
  | inr R, inr result =>
      (result ∉ dom (matrices st)) /\
      exists ls,
        rep st' result ls R /\ forall a, a ∈ ls -> (a ∉ dom (nodes st))
  | _, _ => False
  end.

(** An arithmetic method called on [self] and [other] returns, and in the
    store it leaves every object of the store it was called on is still
    there unchanged; in particular both operands are the same chains of the
    same node objects. *)
Definition keeps_operands
    (method : store -> ref -> ref -> option ((Seq.exception + ref) * store))
    (st : store) (self other : ref) (lsA lsB : list ref)
    (A B : Seq.SparseMatrix) : Prop :=
  exists out st',
    method st self other = Some (out, st') /\
    nodes st ⊆ nodes st' /\ matrices st ⊆ matrices st' /\
    rep st' self lsA A /\ rep st' other lsB B.

(** One 2x2 matrix object holding (0, 0, 5) and (1, 1, 7), and a second one
    holding (0, 0, 5) only. *)
Definition store1 : store :=
  mkStore
    {[ 1%positive := mkNode 1 1 7 None;
       2%positive := mkNode 0 0 5 (Some 1%positive);
       3%positive := mkNode 0 0 5 None ]}
    {[ 1%positive := mkSparseMatrix (Some 2%positive) 2 2;
       2%positive := mkSparseMatrix (Some 3%positive) 2 2 ]}.

Definition matrix1 : Seq.SparseMatrix :=
  Seq.mkSparseMatrix [Seq.mkNode 0 0 5; Seq.mkNode 1 1 7] 2 2.

Definition matrix2 : Seq.SparseMatrix :=
  Seq.mkSparseMatrix [Seq.mkNode 0 0 5] 2 2.

End Heap.

(** ** Further vocabulary for the sequence-level methods *)

Module Cells.
Import Seq.

(** The triples of a call sequence that [set_element] does not skip. *)
Definition stored_triples (ops : list (Z * Z * Z)) : list (Z * Z * Z) :=
  List.filter (fun t => negb (snd t =? 0)) ops.

(** One turn of the get-then-set accumulation of [multiply]: the cell holds
    [acc], the product [p] comes in, and [set_element] skips a zero sum. *)
Definition accumulate (acc p : Z) : Z :=
  if acc + p =? 0 then acc else acc + p.

(** The products [multiply] accumulates into cell (r, c), in the order of its
    two nested loops. *)
Definition cell_products (la lb : list Node) (r c : Z) : list Z :=
  flat_map (fun a =>
    flat_map (fun b =>
      if (col a =? row b) && ((row a =? r) && (col b =? c))
      then [value a * value b] else [])
    lb)
  la.

Definition sum_list (l : list Z) : Z := fold_right Z.add 0 l.

End Cells.

(** ** The stores a program can build *)

Module Reach.
Import Heap.

(** Every matrix object of the store heads a finite chain of node objects,
    and the chains of two different matrix objects share no node. *)
Definition well_linked (st : store) : Prop :=
  (forall s m,
     matrices st !! s = Some m ->
     exists ls xs, chain (nodes st) (head m) ls xs) /\
  (forall s1 s2 m1 m2 l1 l2 x1 x2 a,
     s1 ≠ s2 ->
     matrices st !! s1 = Some m1 -> matrices st !! s2 = Some m2 ->
     chain (nodes st) (head m1) l1 x1 -> chain (nodes st) (head m2) l2 x2 ->
     a ∈ l1 -> a ∉ l2).

(** The stores reached from the empty one by constructor calls and by calls
    of the methods on matrix objects of the store. *)
Inductive reachable : store -> Prop :=
| reach_empty : reachable (mkStore ∅ ∅)
| reach_new st r c :
    reachable st -> reachable (snd (SparseMatrix_new st r c))
| reach_set_element st self r c v st' :
    reachable st -> self ∈ dom (matrices st) ->
    set_element st self r c v = Some st' -> reachable st'
| reach_get_element st self r c v st' :
    reachable st -> self ∈ dom (matrices st) ->
    get_element st self r c = Some (v, st') -> reachable st'
| reach_add st self other out st' :
    reachable st ->
    self ∈ dom (matrices st) -> other ∈ dom (matrices st) ->
    add st self other = Some (out, st') -> reachable st'
| reach_subtract st self other out st' :
    reachable st ->
    self ∈ dom (matrices st) -> other ∈ dom (matrices st) ->
    subtract st self other = Some (out, st') -> reachable st'
| reach_multiply st self other out st' :
    reachable st ->
    self ∈ dom (matrices st) -> other ∈ dom (matrices st) ->
    multiply st self other = Some (out, st') -> reachable st'.

End Reach.

(** ** Reading and writing the text form

    [load_matrix], [save_to_file], [display] and the constructor's optional
    load.  A text is a [string]; the file a path names is either missing
    ([None]) or holds a text.  Python's [str.strip] and [int] are parameters
    of the definitions: [py_int s] is [None] where [int(s)] raises
    [ValueError]. *)

Module Files.
Import Seq.
Import Stdlib.Strings.Ascii Stdlib.Strings.String.

Local Open Scope string_scope.

Definition newline : ascii := "010"%char.

Definition comma : ascii := ","%char.

(** [str(n)] of an integer, as the f-strings of [save_to_file] and [display]
    format it: decimal digits, with a leading minus sign when negative. *)
Definition decimal (z : Z) : string :=
  DecimalString.NilZero.string_of_int (Z.to_int z).

(** [s.split(sep)] for a one-character separator. *)
Fixpoint split_char (sep : ascii) (s : string) : list string :=
  match s with
  | EmptyString => [EmptyString]
  | String ch rest =>
      if Ascii.eqb ch sep then EmptyString :: split_char sep rest
      else
        match split_char sep rest with
        | [] => [String ch EmptyString]
        | piece :: pieces => String ch piece :: pieces
        end
  end.

(** [file.readlines()]: every line keeps its newline. *)
Fixpoint readlines (text : string) : list string :=
  match text with
  | EmptyString => []
  | String ch rest =>
      if Ascii.eqb ch newline then String ch EmptyString :: readlines rest
      else
        match readlines rest with
        | [] => [String ch EmptyString]
        | line :: lines => String ch line :: lines
        end
  end.

(** [line.startswith("(")] and [line.endswith(")")]. *)
Definition startswith_paren (line : string) : bool :=
  match line with
  | String ch _ => Ascii.eqb ch "("%char
  | EmptyString => false
  end.

Fixpoint endswith_paren (line : string) : bool :=
  match line with
  | EmptyString => false
  | String ch EmptyString => Ascii.eqb ch ")"%char
  | String _ rest => endswith_paren rest
  end.

(** [line[1:-1]]. *)
Fixpoint drop_last (s : string) : string :=
  match s with
  | EmptyString => EmptyString
  | String _ EmptyString => EmptyString
  | String ch rest => String ch (drop_last rest)
  end.

Definition inner (line : string) : string :=
  match line with
  | EmptyString => EmptyString
  | String _ rest => drop_last rest
  end.

(** The test that guards the parsing of an entry line:
    [line and line.startswith("(") and line.endswith(")")]. *)
Definition entry_shaped (line : string) : bool :=
  negb (String.eqb line EmptyString)
  && startswith_paren line && endswith_paren line.

(** How a call of [load_matrix] ends: at its last [print], or in one of its
    three [except] clauses. *)
Inductive outcome :=
| Loaded
| FileNotFound
| ParseError
| UnexpectedError.

Section Builtins.

Variable py_strip : string -> string.
Variable py_int : string -> option Z.

(** [int(line.split('=')[1].strip())]: [IndexError] without an equals sign,
    [ValueError] when the text after it is no integer. *)
Definition parse_dimension (line : string) : outcome + Z :=
  match split_char "="%char line with
  | _ :: field :: _ =>
      match py_int (py_strip field) with
      | Some z => inr z
      | None => inl ParseError
      end
  | _ => inl UnexpectedError
  end.

(** [row, col, value = map(int, line[1:-1].split(','))]: [None] stands for
    the [ValueError] of a field that is no integer or of a number of fields
    other than three. *)
Definition parse_entry (line : string) : option (Z * Z * Z) :=
  match map py_int (split_char ","%char (inner line)) with
  | [Some r; Some c; Some v] => Some (r, c, v)
  | _ => None
  end.

(** The [for] loop over [lines[2:]]; the second component lists the lines
    reported as skipped. *)
Fixpoint load_entries (self : SparseMatrix) (lines : list string)
    : SparseMatrix * list string * outcome :=
  match lines with
  | [] => (self, [], Loaded)
  | line :: rest =>
      let line := py_strip line in
      if entry_shaped line then
        match parse_entry line with
        | Some (r, c, v) => load_entries (set_element self r c v) rest
        | None => (self, [], ParseError)
        end
      else
        let '(m, skipped, o) := load_entries self rest in
        (m, line :: skipped, o)
  end.

Definition set_num_rows (self : SparseMatrix) (z : Z) : SparseMatrix :=
  mkSparseMatrix (head self) z (num_cols self).

Definition set_num_cols (self : SparseMatrix) (z : Z) : SparseMatrix :=
  mkSparseMatrix (head self) (num_rows self) z.

(** [load_matrix]: the matrix as the call leaves it, the lines it reported
    as skipped, and how it ended. *)
Definition load_matrix (self : SparseMatrix) (file : option string)
    : SparseMatrix * list string * outcome :=
  match file with
  | None => (self, [], FileNotFound)
  | Some text =>
      match readlines text with
      | [] => (self, [], UnexpectedError)
      | line0 :: lines =>
          match parse_dimension line0 with
          | inl e => (self, [], e)
          | inr nr =>
              let self := set_num_rows self nr in
              match lines with
              | [] => (self, [], UnexpectedError)
              | line1 :: lines =>
                  match parse_dimension line1 with
                  | inl e => (self, [], e)
                  | inr nc => load_entries (set_num_cols self nc) lines
                  end
              end
          end
      end
  end.

(** [SparseMatrix(matrix_file_path, num_rows, num_cols)]: [None] for no path
    (or an empty one), otherwise the file the path names. *)
Definition SparseMatrix_init (matrix_file : option (option string))
    (r c : Z) : SparseMatrix :=
  match matrix_file with
  | None => SparseMatrix_new r c
  | Some file => fst (fst (load_matrix (SparseMatrix_new r c) file))
  end.

End Builtins.

(** The line [save_to_file] writes for a node. *)
Definition entry_line (n : Node) : string :=
  "(" ++ decimal (row n) ++ "," ++ decimal (col n) ++ ","
      ++ decimal (value n) ++ ")" ++ String newline EmptyString.

(** The text [save_to_file] leaves in the file: the two header lines, then
    one line per node of the chain. *)
Definition save_to_file (self : SparseMatrix) : string :=
  ("Rows=" ++ decimal (num_rows self) ++ String newline EmptyString)
  ++ ("Cols=" ++ decimal (num_cols self) ++ String newline EmptyString)
  ++ String.concat EmptyString (map entry_line (head self)).

(** The lines [display] prints. *)
Definition display (self : SparseMatrix) : list string :=
  map (fun n => "(" ++ decimal (row n) ++ ", " ++ decimal (col n) ++ ", "
                    ++ decimal (value n) ++ ")")
      (head self).

(** The characters [save_to_file] puts around and inside its numbers. *)
Definition plain_char (ch : ascii) : bool :=
  existsb (Ascii.eqb ch) (list_ascii_of_string "0123456789-(),").

Fixpoint plain (s : string) : bool :=
  match s with
  | EmptyString => true
  | String ch rest => plain_char ch && plain rest
  end.

(** Stand-ins for the two builtins, used to run the definitions on concrete
    texts: a [strip] that removes one trailing newline, and an [int] that
    reads plain decimal notation. *)
Fixpoint strip_newline (s : string) : string :=
  match s with
  | EmptyString => EmptyString
  | String ch EmptyString =>
      if Ascii.eqb ch newline then EmptyString else s
  | String ch rest => String ch (strip_newline rest)
  end.

Definition read_decimal (s : string) : option Z :=
  option_map Z.of_int (DecimalString.NilZero.int_of_string s).

(** The characters of a number as [decimal] writes it. *)
Definition numeric_char (ch : ascii) : bool :=
  existsb (Ascii.eqb ch) (list_ascii_of_string "0123456789-").

Fixpoint numeric (s : string) : bool :=
  match s with
  | EmptyString => true
  | String ch rest => numeric_char ch && numeric rest
  end.

(** The character [sep] does not occur in [s]. *)
Fixpoint absent (sep : ascii) (s : string) : bool :=
  match s with
  | EmptyString => true
  | String ch rest => negb (Ascii.eqb ch sep) && absent sep rest
  end.

(** What [save_to_file] writes for a node, without the newline. *)
Definition entry_text (n : Node) : string :=
  "(" ++ decimal (row n) ++ "," ++ decimal (col n) ++ ","
      ++ decimal (value n) ++ ")".

End Files.

(** ** Facts about the sequence-level methods *)

Section SeqFacts.
Import Seq.

Lemma precedes_not_at n r c : precedes n r c = true -> at_coord r c n = false.
Proof. unfold precedes, at_coord. lia. Qed.

(** [scan] stops at the first node of the chain that sits at (r, c). *)
Lemma scan_find l r c :
  scan l r c = from_option value 0 (find (at_coord r c) l).
Proof.
  induction l as [|n l IH]; simpl; [done|].
  unfold at_coord at 1. destruct (_ && _); simpl; done.
Qed.

(** Linking a node in front of the first node that does not precede it makes
    it the first node at its coordinates, and hides nothing elsewhere. *)
Lemma scan_link_in n l r c :
  scan (link_in n l) r c =
  if at_coord r c n then value n else scan l r c.
Proof.
  induction l as [|m l IH]; simpl.
  - unfold at_coord. done.
  - destruct (precedes m (row n) (col n)) eqn:Hp; simpl.
    + rewrite IH. fold (at_coord r c m). fold (at_coord r c n).
      destruct (at_coord r c n) eqn:Hn; [|done].
      assert (at_coord (row n) (col n) m = false) as Hm
        by (by apply precedes_not_at).
      unfold at_coord in *.
      replace (row m =? r) with (row m =? row n) by lia.
      replace (col m =? c) with (col m =? col n) by lia.
      by rewrite Hm.
    + done.
Qed.

Lemma head_set_element self r c v :
  head (set_element self r c v) =
  if v =? 0 then head self else link_in (mkNode r c v) (head self).
Proof.
  unfold set_element. destruct (v =? 0); [done|].
  destruct (head self); done.
Qed.

Lemma num_rows_set_element self r c v :
  num_rows (set_element self r c v) = num_rows self.
Proof.
  unfold set_element. destruct (v =? 0); [done|]. destruct (head self); done.
Qed.

Lemma num_cols_set_element self r c v :
  num_cols (set_element self r c v) = num_cols self.
Proof.
  unfold set_element. destruct (v =? 0); [done|]. destruct (head self); done.
Qed.

(** Reading after writing, at any coordinate and for any chain. *)
Lemma get_set_element self r c v r' c' :
  get_element (set_element self r c v) r' c' =
  if (v =? 0) || negb ((r =? r') && (c =? c'))
  then get_element self r' c' else v.
Proof.
  unfold get_element. rewrite head_set_element.
  destruct (v =? 0); simpl; [done|].
  rewrite scan_link_in. unfold at_coord; simpl.
  destruct (r =? r') eqn:Hr, (c =? c') eqn:Hc; simpl; done.
Qed.

Lemma fold_left_invariant {A B} (P : A -> Prop) (f : A -> B -> A) l a :
  P a -> (forall a b, P a -> P (f a b)) -> P (fold_left f l a).
Proof.
  intros Ha Hf. revert a Ha.
  induction l as [|b l IH]; intros a Ha; simpl; [done|]. apply IH, Hf, Ha.
Qed.

Lemma same_dims_set_element m self r c v :
  same_dims m self -> same_dims m (set_element self r c v).
Proof.
  unfold same_dims. by rewrite num_rows_set_element, num_cols_set_element.
Qed.

Lemma same_dims_copy_into m l res :
  same_dims m res -> same_dims m (copy_into res l).
Proof.
  intros H. unfold copy_into.
  apply (fold_left_invariant (same_dims m)); [done|].
  intros. by apply same_dims_set_element.
Qed.

Lemma same_dims_combine_into m op l res :
  same_dims m res -> same_dims m (combine_into op res l).
Proof.
  intros H. unfold combine_into.
  apply (fold_left_invariant (same_dims m)); [done|].
  intros. by apply same_dims_set_element.
Qed.

Lemma same_dims_multiply_row m a l res :
  same_dims m res -> same_dims m (multiply_row a res l).
Proof.
  intros H. unfold multiply_row.
  apply (fold_left_invariant (same_dims m)); [done|].
  intros res' b Hres. destruct (_ =? _); [|done].
  by apply same_dims_set_element.
Qed.

(** *** Order of the chain *)

Lemma precedes_spec n r c v :
  precedes n r c = true <-> coord_lt n (mkNode r c v).
Proof. unfold precedes, coord_lt; simpl. lia. Qed.

Lemma not_precedes_spec n r c v :
  precedes n r c = false <-> coord_le (mkNode r c v) n.
Proof. unfold precedes, coord_le; simpl. lia. Qed.

Lemma coord_le_trans a b c : coord_le a b -> coord_le b c -> coord_le a c.
Proof. unfold coord_le. lia. Qed.

Lemma coord_lt_le a b : coord_lt a b -> coord_le a b.
Proof. unfold coord_lt, coord_le. lia. Qed.

(** The loop splits the chain in two and links the new node in between; every
    node that was there stays, in the same order. *)
Lemma link_in_split n l :
  exists l1 l2,
    l = l1 ++ l2 /\ link_in n l = l1 ++ n :: l2 /\
    Forall (fun m => precedes m (row n) (col n) = true) l1 /\
    match l2 with
    | [] => True
    | m :: _ => precedes m (row n) (col n) = false
    end.
Proof.
  induction l as [|m l IH]; simpl.
  - exists [], []. by repeat split.
  - destruct (precedes m (row n) (col n)) eqn:Hp.
    + destruct IH as (l1 & l2 & -> & -> & Hall & Hhd).
      exists (m :: l1), l2. repeat split; try done. by constructor.
    + exists [], (m :: l). by repeat split.
Qed.

Lemma link_in_perm n l : link_in n l ≡ₚ n :: l.
Proof.
  induction l as [|m l IH]; simpl; [done|].
  destruct (precedes _ _ _); [|done].
  rewrite IH. apply perm_swap.
Qed.

Lemma link_in_length n l : length (link_in n l) = S (length l).
Proof. by rewrite link_in_perm. Qed.

Lemma link_in_sorted n l :
  StronglySorted coord_le l -> StronglySorted coord_le (link_in n l).
Proof.
  induction 1 as [|m l Hl IH Hm]; simpl.
  - repeat constructor.
  - destruct n as [r c v]; simpl.
    destruct (precedes m r c) eqn:Hp.
    + constructor; [done|]. rewrite link_in_perm. constructor; [|done].
      by apply coord_lt_le, precedes_spec.
    + apply (not_precedes_spec _ _ _ v) in Hp.
      constructor; [by constructor|]. constructor; [done|].
      eapply Forall_impl; [exact Hm|]. intros x Hx.
      by eapply coord_le_trans.
Qed.

Lemma ordered_set_element self r c v :
  ordered (head self) -> ordered (head (set_element self r c v)).
Proof.
  intros [Hs Hv]. rewrite head_set_element.
  destruct (v =? 0) eqn:Hz; [done|]. split.
  - by apply link_in_sorted.
  - rewrite link_in_perm. constructor; [simpl; lia|done].
Qed.

(** Whatever calls are made on a fresh matrix, the chain stays ordered. *)
Lemma ordered_set_all ops r c :
  ordered (head (set_all (SparseMatrix_new r c) ops)).
Proof.
  unfold set_all.
  apply (fold_left_invariant (fun m => ordered (head m))).
  - split; constructor.
  - intros m [[r' c'] v'] Hm. by apply ordered_set_element.
Qed.


(** *** What the two loops of [add] and [subtract] compute

    The chains the methods are meant for hold one node per coordinate.  On
    such chains both loops can be described cell by cell. *)

Lemma at_coord_coord r c n : at_coord r c n = true <-> coord n = (r, c).
Proof.
  unfold at_coord, coord. split.
  - intros H. f_equal; lia.
  - intros [= <- <-]. lia.
Qed.

Lemma find_absent l r c :
  (r, c) ∉ map coord l -> find (at_coord r c) l = None.
Proof.
  induction l as [|n l IH]; simpl; [done|].
  rewrite not_elem_of_cons. intros [Hn Hl].
  destruct (at_coord r c n) eqn:Hat; [|by apply IH].
  apply at_coord_coord in Hat. congruence.
Qed.

Lemma scan_absent l r c : (r, c) ∉ map coord l -> scan l r c = 0.
Proof.
  induction l as [|n l IH]; simpl; [done|].
  rewrite not_elem_of_cons. intros [Hn Hl].
  fold (at_coord r c n). destruct (at_coord r c n) eqn:Hat; [|by apply IH].
  apply at_coord_coord in Hat. congruence.
Qed.

Lemma get_copy_into l res r c :
  one_per_coord l ->
  get_element (copy_into res l) r c =
  if scan l r c =? 0 then get_element res r c else scan l r c.
Proof.
  unfold one_per_coord. revert res.
  induction l as [|n l IH]; intros res Hnd; simpl; [done|].
  apply NoDup_cons in Hnd as [Hn Hnd].
  unfold copy_into in *. rewrite IH by done.
  rewrite get_set_element. fold (at_coord r c n).
  destruct (at_coord r c n) eqn:Hat.
  - apply at_coord_coord in Hat as Hc. rewrite Hc in Hn.
    rewrite (scan_absent l r c Hn). simpl.
    by rewrite orb_false_r.
  - simpl. by rewrite orb_true_r.
Qed.

Lemma get_combine_into op l res r c :
  one_per_coord l ->
  get_element (combine_into op res l) r c =
  match find (at_coord r c) l with
  | Some n =>
      let s := op (get_element res r c) (value n) in
      if s =? 0 then get_element res r c else s
  | None => get_element res r c
  end.
Proof.
  unfold one_per_coord. revert res.
  induction l as [|n l IH]; intros res Hnd; simpl; [done|].
  apply NoDup_cons in Hnd as [Hn Hnd].
  unfold combine_into in *. rewrite IH by done.
  destruct (at_coord r c n) eqn:Hat.
  - apply at_coord_coord in Hat as Hc. rewrite Hc in Hn.
    rewrite (find_absent l r c Hn).
    injection Hc as -> ->.
    rewrite get_set_element. rewrite !Z.eqb_refl. simpl.
    by rewrite orb_false_r.
  - rewrite get_set_element.
    unfold at_coord in Hat. rewrite Hat. simpl. by rewrite orb_true_r.
Qed.

Lemma zero_if_zero a : (if a =? 0 then 0 else a) = a.
Proof. destruct (Z.eqb_spec a 0); done. Qed.

Lemma scan_find_value l r c :
  scan l r c = match find (at_coord r c) l with Some n => value n | None => 0 end.
Proof. rewrite scan_find. by destruct (find _ _). Qed.

(** [add] on chains with one node per coordinate: the cell holds the sum,
    unless the sum is zero, in which case the value copied from [self] stays. *)
Lemma add_cells self other :
  one_per_coord (head self) -> one_per_coord (head other) ->
  num_rows self = num_rows other -> num_cols self = num_cols other ->
  exists result,
    add self other = inr result /\
    forall r c,
      let a := get_element self r c in
      let b := get_element other r c in
      get_element result r c = if a + b =? 0 then a else a + b.
Proof.
  intros Hs Ho Hr Hc. unfold add.
  rewrite Hr, Hc, !Z.eqb_refl. simpl. eexists; split; [done|].
  intros r c. simpl.
  rewrite get_combine_into, get_copy_into by done.
  unfold get_element at 1 3. simpl.
  unfold get_element. rewrite (scan_find_value (head other)).
  rewrite !zero_if_zero.
  destruct (find (at_coord r c) (head other)) as [n|]; simpl; [done|].
  rewrite Z.add_0_r. by destruct (_ =? _).
Qed.

(** [subtract], likewise: a zero difference leaves the minuend's value. *)
Lemma subtract_cells self other :
  one_per_coord (head self) -> one_per_coord (head other) ->
  num_rows self = num_rows other -> num_cols self = num_cols other ->
  exists result,
    subtract self other = inr result /\
    forall r c,
      let a := get_element self r c in
      let b := get_element other r c in
      get_element result r c = if a - b =? 0 then a else a - b.
Proof.
  intros Hs Ho Hr Hc. unfold subtract.
  rewrite Hr, Hc, !Z.eqb_refl. simpl. eexists; split; [done|].
  intros r c. simpl.
  rewrite get_combine_into, get_copy_into by done.
  unfold get_element at 1 3. simpl.
  unfold get_element. rewrite (scan_find_value (head other)).
  rewrite !zero_if_zero.
  destruct (find (at_coord r c) (head other)) as [n|]; simpl; [done|].
  rewrite Z.sub_0_r. by destruct (_ =? _).
Qed.

(** X21. The two orders of [add] answer alike, with the sum, at every cell
    where the two operands do not cancel (operands with one node per
    cell). *)
Lemma add_cells_commute self other r c :
  one_per_coord (head self) -> one_per_coord (head other) ->
  num_rows self = num_rows other -> num_cols self = num_cols other ->
  get_element self r c + get_element other r c <> 0 ->
  exists ab ba,
    add self other = inr ab /\ add other self = inr ba /\
    get_element ab r c = get_element self r c + get_element other r c /\
    get_element ba r c = get_element ab r c.
Proof.
  intros Hs Ho Hr Hc Hsum.
  destruct (add_cells self other Hs Ho Hr Hc) as (ab & Hab & Hcells).
  destruct (add_cells other self Ho Hs (eq_sym Hr) (eq_sym Hc))
    as (ba & Hba & Hcells').
  exists ab, ba. split; [done|]. split; [done|].
  specialize (Hcells r c). specialize (Hcells' r c). simpl in *.
  rewrite Hcells, Hcells'.
  rewrite (Z.add_comm (get_element other r c)).
  by destruct (Z.eqb_spec (get_element self r c + get_element other r c) 0).
Qed.

(** *** Copying a chain that satisfies the data-model invariant *)

Lemma link_in_last n l :
  Forall (fun m => coord_lt m n) l -> link_in n l = l ++ [n].
Proof.
  induction 1 as [|m l Hm Hl IH]; simpl; [done|].
  destruct n as [r c v]. apply precedes_spec in Hm. simpl.
  rewrite Hm. by rewrite <- IH.
Qed.

Lemma strictly_increasing_one_per_coord l :
  strictly_increasing l -> one_per_coord l.
Proof.
  unfold one_per_coord.
  induction 1 as [|n l Hl IH Hn]; simpl; constructor; [|done].
  intros Hin. apply list_elem_of_fmap in Hin as (m & Hc & Hm).
  rewrite Forall_forall in Hn. specialize (Hn m Hm).
  unfold coord in Hc. injection Hc as Hr Hc. unfold coord_lt in Hn. lia.
Qed.

(** The first loop of [add] and [subtract] rebuilds such a chain node for
    node behind what the result already holds. *)
Lemma copy_into_increasing l res :
  strictly_increasing (head res ++ l) ->
  Forall (fun n => value n <> 0) l ->
  head (copy_into res l) = head res ++ l.
Proof.
  revert res. induction l as [|n l IH]; intros res Hs Hv; simpl.
  - by rewrite app_nil_r.
  - apply Forall_cons in Hv as [Hn Hv].
    unfold copy_into in *. rewrite IH; [|rewrite head_set_element|done].
    + rewrite head_set_element.
      destruct (Z.eqb_spec (value n) 0) as [|_]; [done|].
      destruct n as [r c v]; simpl.
      rewrite link_in_last; [by rewrite <- app_assoc|].
      apply Forall_forall. intros m Hm.
      eapply (StronglySorted_app_1_elem_of _ _ _ m _ Hs); [done|].
      apply list_elem_of_here.
    + destruct (Z.eqb_spec (value n) 0) as [|_]; [done|].
      destruct n as [r c v]; simpl.
      rewrite link_in_last; [by rewrite <- app_assoc|].
      apply Forall_forall. intros m Hm.
      eapply (StronglySorted_app_1_elem_of _ _ _ m _ Hs); [done|].
      apply list_elem_of_here.
Qed.

Lemma scan_present l n :
  one_per_coord l -> n ∈ l -> scan l (row n) (col n) = value n.
Proof.
  unfold one_per_coord.
  induction l as [|m l IH]; simpl; intros Hnd Hin; [by inversion Hin|].
  apply NoDup_cons in Hnd as [Hm Hnd].
  apply elem_of_cons in Hin as [->|Hin]; [by rewrite !Z.eqb_refl|].
  fold (at_coord (row n) (col n) m).
  destruct (at_coord (row n) (col n) m) eqn:Hat; [|by apply IH].
  apply at_coord_coord in Hat. exfalso. apply Hm.
  rewrite Hat. by apply (list_elem_of_fmap_2 coord).
Qed.

(** When every subtrahend already stored in the result equals the value read
    back, each difference is zero and the second loop changes nothing. *)
Lemma combine_sub_same l res :
  (forall n, n ∈ l -> get_element res (row n) (col n) = value n) ->
  combine_into Z.sub res l = res.
Proof.
  induction l as [|n l IH]; intros Hl; simpl; [done|].
  rewrite (Hl n) by apply list_elem_of_here.
  rewrite Z.sub_diag. unfold set_element at 1. simpl.
  apply IH. intros m Hm. apply Hl. by apply list_elem_of_further.
Qed.

(** X22. [subtract(A, A)] on any chain that satisfies the data-model
    invariant returns the nodes of [A] themselves: nothing is cancelled. *)
Lemma subtract_self_keeps_all self :
  strictly_increasing (head self) ->
  Forall (fun n => value n <> 0) (head self) ->
  subtract self self =
  inr {| head := head self;
         num_rows := num_rows self; num_cols := num_cols self |}.
Proof.
  intros Hs Hv. unfold subtract. rewrite !Z.eqb_refl. simpl. f_equal.
  pose proof (copy_into_increasing (head self)
                (SparseMatrix_new (num_rows self) (num_cols self)) Hs Hv)
    as Hcopy. simpl in Hcopy.
  pose proof (same_dims_copy_into
                (SparseMatrix_new (num_rows self) (num_cols self))
                (head self) _ (conj eq_refl eq_refl)) as [Hr Hc].
  simpl in Hr, Hc.
  rewrite combine_sub_same.
  - destruct (copy_into _ _) as [h nr nc]. simpl in *. by subst.
  - intros n Hn. unfold get_element. rewrite Hcopy.
    apply scan_present; [|done].
    by apply strictly_increasing_one_per_coord.
Qed.

Lemma set_element_zero_id self r c : set_element self r c 0 = self.
Proof. done. Qed.

(** *** Element access *)

(** C4. Whatever the chain holds, and whatever was stored at (r, c) before,
    [get_element(r, c)] right after [set_element(r, c, v)] with a non-zero [v]
    returns [v]. *)
Theorem get_after_set_element self r c v :
  v <> 0 -> get_element (set_element self r c v) r c = v.
Proof.
  intros Hv. rewrite get_set_element, !Z.eqb_refl.
  by destruct (Z.eqb_spec v 0).
Qed.

Lemma get_after_set_element_witness :
  get_element (set_element (matrix_of [(0, 0, 7); (1, 2, 4)] 2 3) 0 0 9) 0 0 = 9.
Proof. apply get_after_set_element. lia. Defined.

(** C6. [set_element(r, c, 0)] returns with the matrix as it was: same chain,
    same dimensions, hence the same answer from every later [get_element]. *)
Theorem set_element_zero_unchanged self r c :
  set_element self r c 0 = self /\
  forall r' c',
    get_element (set_element self r c 0) r' c' = get_element self r' c'.
Proof. split; [done|]. intros r' c'. by rewrite get_set_element. Qed.

(** *** Dimension checks *)

(** C7, counterexample. The exception [add] raises is the same value whatever
    the dimensions of the operands, so no function can read the two
    matrices' dimensions back from it. *)
Lemma dimension_error_carries_no_dimensions :
  add (SparseMatrix_new 1 2) (SparseMatrix_new 2 1) =
    inl (ValueError "Matrix dimensions must match for addition.") /\
  add (SparseMatrix_new 3 4) (SparseMatrix_new 5 6) =
    inl (ValueError "Matrix dimensions must match for addition.") /\
  ~ exists dims_of : exception -> (Z * Z) * (Z * Z),
      forall self other e,
        add self other = inl e ->
        dims_of e = ((num_rows self, num_cols self),
                     (num_rows other, num_cols other)).
Proof.
  split; [done|]. split; [done|].
  intros [dims_of H].
  pose proof (H (SparseMatrix_new 1 2) (SparseMatrix_new 2 1) _ eq_refl) as H1.
  pose proof (H (SparseMatrix_new 3 4) (SparseMatrix_new 5 6) _ eq_refl) as H2.
  simpl in H1, H2. congruence.
Qed.

(** C7, as the code has it. [add] and [subtract] raise [ValueError] with a
    fixed message exactly when the row counts or the column counts differ,
    [multiply] exactly when [self.num_cols] differs from [other.num_rows]; in
    every other case they return a matrix, of the dimensions of [self] for
    [add] and [subtract] and of [self.num_rows] by [other.num_cols] for
    [multiply]. *)
Theorem dimension_check_raises_ValueError self other :
  let mismatch :=
    num_rows self <> num_rows other \/ num_cols self <> num_cols other in
  (add self other =
     inl (ValueError "Matrix dimensions must match for addition.")
   <-> mismatch) /\
  (subtract self other =
     inl (ValueError "Matrix dimensions must match for subtraction.")
   <-> mismatch) /\
  (multiply self other =
     inl (ValueError "Number of columns in first matrix must be equal to the number of rows in second matrix for multiplication.")
   <-> num_cols self <> num_rows other) /\
  (~ mismatch <->
   exists result, add self other = inr result /\ same_dims self result) /\
  (~ mismatch <->
   exists result, subtract self other = inr result /\ same_dims self result) /\
  (num_cols self = num_rows other <->
   exists result,
     multiply self other = inr result /\
     num_rows result = num_rows self /\ num_cols result = num_cols other).
Proof.
  unfold add, subtract, multiply.
  destruct (Z.eqb_spec (num_rows self) (num_rows other)) as [Hr|Hr];
  destruct (Z.eqb_spec (num_cols self) (num_cols other)) as [Hc|Hc];
  destruct (Z.eqb_spec (num_cols self) (num_rows other)) as [Hm|Hm];
  simpl; repeat split;
    try (intros; (done || tauto || (by left) || (by right)));
    try (intros [result [? _]]; done);
    try (intros [? | ?]; done);
    try (intros _; eexists; split; [done|]);
    try (apply same_dims_combine_into, same_dims_copy_into; done);
    try (apply (fold_left_invariant
           (fun m => num_rows m = num_rows self /\ num_cols m = num_cols other));
         [done|]; intros m a [<- <-];
         apply (same_dims_multiply_row m a (head other) m); done).
Qed.

(** *** Where the chain departs from the data model *)

(** C3. Two [set_element] calls at the same cell of an empty matrix leave two
    nodes for that cell, the later one first: the chain is not strictly
    increasing and holds a repeated (row, col). *)
Theorem set_element_twice_same_cell :
  let m := matrix_of [(0, 0, 1); (0, 0, 2)] 1 1 in
  entries m = [(0, 0, 2); (0, 0, 1)] /\
  ~ strictly_increasing (head m) /\
  ~ one_per_coord (head m).
Proof.
  simpl. split; [done|]. split.
  - intros Hs. apply StronglySorted_inv in Hs as [_ Hall].
    apply Forall_cons in Hall as [Hlt _].
    unfold coord_lt in Hlt. simpl in Hlt. lia.
  - intros Hnd. apply NoDup_cons in Hnd as [Hnotin _].
    apply Hnotin. apply list_elem_of_here.
Qed.

(** C1. [add] of a 1x1 matrix holding 5 and a 1x1 matrix holding -5: the sum
    at (0, 0) is 0, so the second loop's [set_element] returns at once and the
    5 copied from the first operand is what the result answers. *)
Theorem add_opposite_values_keeps_first :
  let A := matrix_of [(0, 0, 5)] 1 1 in
  let B := matrix_of [(0, 0, -5)] 1 1 in
  exists result,
    add A B = inr result /\
    entries result = [(0, 0, 5)] /\
    get_element result 0 0 = 5 /\
    get_element A 0 0 + get_element B 0 0 = 0.
Proof. simpl. eexists. by repeat split. Qed.

(** C2. [subtract(A, A)] for the 1x1 matrix holding 5: the difference is 0,
    [set_element] skips it, and the copied node (0, 0, 5) is all the result
    holds. *)
Theorem subtract_self_keeps_entry :
  let A := matrix_of [(0, 0, 5)] 1 1 in
  exists result,
    subtract A A = inr result /\
    entries result = [(0, 0, 5)] /\
    get_element result 0 0 = 5.
Proof. simpl. eexists. by repeat split. Qed.

(** C8. The product of the 1x2 and 2x1 matrices of the scenario is 1x1 and
    answers 23 at (0, 0), but its chain holds two nodes: the final sum and,
    behind it, the partial sum 8 of the first product. *)
Theorem multiply_scenario_keeps_partial_sum :
  let A := matrix_of [(0, 0, 2); (0, 1, 3)] 1 2 in
  let B := matrix_of [(0, 0, 4); (1, 0, 5)] 2 1 in
  entries A = [(0, 0, 2); (0, 1, 3)] /\
  entries B = [(0, 0, 4); (1, 0, 5)] /\
  exists result,
    multiply A B = inr result /\
    num_rows result = 1 /\ num_cols result = 1 /\
    entries result = [(0, 0, 23); (0, 0, 8)] /\
    get_element result 0 0 = 23.
Proof. simpl. repeat split. eexists. by repeat split. Qed.

(** C9. For the 1x1 matrices holding 1 and 2, [add(A, B)] and [add(B, A)]
    both answer 3 at (0, 0) but keep different nodes behind it: the value
    copied from whichever operand came first. *)
Theorem add_entries_depend_on_order :
  let A := matrix_of [(0, 0, 1)] 1 1 in
  let B := matrix_of [(0, 0, 2)] 1 1 in
  exists ab ba,
    add A B = inr ab /\ add B A = inr ba /\
    entries ab = [(0, 0, 3); (0, 0, 1)] /\
    entries ba = [(0, 0, 3); (0, 0, 2)] /\
    entries ab <> entries ba.
Proof. simpl. do 2 eexists. by repeat split. Qed.

End SeqFacts.

(** ** Facts about the linked objects *)

Section HeapFacts.
Import Heap.

Lemma lseg_length h p q ls xs : lseg h p q ls xs -> length ls = length xs.
Proof. induction 1; simpl; congruence. Qed.

Lemma lseg_app h p q r l1 l2 x1 x2 :
  lseg h p q l1 x1 -> lseg h q r l2 x2 -> lseg h p r (l1 ++ l2) (x1 ++ x2).
Proof.
  induction 1 as [|a n q ls xs Ha Hseg IH]; simpl; [done|].
  intros H2. econstructor; [done|]. by apply IH.
Qed.

(** A segment only depends on the objects it visits. *)
Lemma lseg_frame h h' p q ls xs :
  lseg h p q ls xs ->
  (forall a, a ∈ ls -> h' !! a = h !! a) ->
  lseg h' p q ls xs.
Proof.
  induction 1 as [|a n q ls xs Ha Hseg IH]; intros Hsame; [constructor|].
  econstructor.
  - rewrite Hsame; [done|]. apply list_elem_of_here.
  - apply IH. intros b Hb. apply Hsame. by apply list_elem_of_further.
Qed.

Lemma lseg_mono h h' p q ls xs :
  h ⊆ h' -> lseg h p q ls xs -> lseg h' p q ls xs.
Proof.
  intros Hsub. induction 1 as [|a n q ls xs Ha Hseg IH]; [constructor|].
  econstructor; [|done]. by eapply lookup_weaken.
Qed.

Lemma lseg_in_dom h p q ls xs a :
  lseg h p q ls xs -> a ∈ ls -> a ∈ dom h.
Proof.
  induction 1 as [|b n q ls xs Hb Hseg IH]; intros Hin.
  - by inversion Hin.
  - apply elem_of_cons in Hin as [->|Hin]; [|by apply IH].
    apply elem_of_dom. by eexists.
Qed.

Lemma chain_functional h p ls xs ls' xs' :
  chain h p ls xs -> chain h p ls' xs' -> ls = ls' /\ xs = xs'.
Proof.
  unfold chain. intros H. revert ls' xs'.
  remember None as q eqn:Hq.
  induction H as [|a n q ls xs Ha Hseg IH]; intros ls' xs' H'.
  - subst. by inversion H'.
  - subst q. inversion H' as [|a' n' q' ls'' xs'' Ha' Hseg']; subst.
    rewrite Ha in Ha'. injection Ha' as <-.
    destruct (IH eq_refl _ _ Hseg') as [-> ->]. done.
Qed.

Lemma lseg_split h p r l1 l2 xs :
  lseg h p r (l1 ++ l2) xs ->
  exists q x1 x2,
    xs = x1 ++ x2 /\ lseg h p q l1 x1 /\ lseg h q r l2 x2.
Proof.
  revert p xs. induction l1 as [|a l1 IH]; intros p xs H; simpl in *.
  - exists p, [], xs. repeat split; [constructor|done].
  - inversion H as [|a' n q' ls' xs' Ha Hseg]; subst.
    destruct (IH _ _ Hseg) as (q & x1 & x2 & -> & H1 & H2).
    exists q, (abs n :: x1), x2. repeat split; [|done].
    by econstructor.
Qed.

(** A chain never visits an object twice. *)
Lemma chain_NoDup h p ls xs : chain h p ls xs -> NoDup ls.
Proof.
  unfold chain. remember None as q eqn:Hq.
  induction 1 as [|a n q ls xs Ha Hseg IH]; [constructor|].
  subst q. constructor; [|by apply IH].
  intros Hin. apply list_elem_of_split in Hin as (l1 & l2 & ->).
  destruct (lseg_split _ _ _ _ _ _ Hseg) as (q & x1 & x2 & -> & H1 & H2).
  inversion H2 as [|a' n' q' ls' xs' Ha' Hseg']; subst.
  rewrite Ha in Ha'. injection Ha' as <-.
  destruct (chain_functional _ _ _ _ _ _ Hseg Hseg') as [Hl _].
  apply (f_equal length) in Hl. rewrite length_app in Hl. simpl in Hl. lia.
Qed.

(** Hence it is no longer than the store is large. *)
Lemma chain_length h p ls xs : chain h p ls xs -> (length ls <= size h)%nat.
Proof.
  intros H. rewrite <- size_dom.
  rewrite <- (size_list_to_set (C:=gset ref) ls) by by eapply chain_NoDup.
  apply subseteq_size. intros a Ha. apply elem_of_list_to_set in Ha.
  by eapply lseg_in_dom.
Qed.

Lemma lseg_snoc_inv h p q l a xs :
  lseg h p q (l ++ [a]) xs ->
  exists n x1,
    xs = x1 ++ [abs n] /\ lseg h p (Some a) l x1 /\
    h !! a = Some n /\ next n = q.
Proof.
  revert p xs. induction l as [|b l IH]; intros p xs H; simpl in *.
  - inversion H as [|a' n q' ls' xs' Ha Hseg]; subst.
    inversion Hseg; subst. exists n, []. repeat split; [constructor|done].
  - inversion H as [|a' n q' ls' xs' Hb Hseg]; subst.
    destruct (IH _ _ Hseg) as (na & x1 & -> & H1 & Ha & Hq).
    exists na, (abs n :: x1). repeat split; [|done..].
    by econstructor.
Qed.

(** *** The loops of [get_element] and [set_element] *)

Lemma precedes_abs n r c : precedes n r c = Seq.precedes (abs n) r c.
Proof. done. Qed.

Lemma scan_chain h r c p ls xs fuel :
  chain h p ls xs -> (length ls <= fuel)%nat ->
  scan fuel h r c p = Some (Seq.scan xs r c).
Proof.
  unfold chain. remember None as q eqn:Hq. intros H. revert fuel.
  induction H as [|a n q ls xs Ha Hseg IH]; intros fuel Hfuel; simpl.
  - subst. by destruct fuel.
  - destruct fuel as [|fuel]; [simpl in Hfuel; lia|]. simpl in *.
    rewrite Ha. simpl. destruct (_ && _); [done|].
    apply IH; [done|lia].
Qed.

Lemma from_last_cons (prev : option ref) a l :
  from_option Some prev (last (a :: l)) = from_option Some (Some a) (last l).
Proof.
  revert prev a. induction l as [|b l IH]; intros prev a; [done|].
  change (last (a :: b :: l)) with (last (b :: l)).
  by rewrite !(IH _ b).
Qed.

(** Where the loop of [set_element] stops: the nodes it passed all precede
    the target, the node it stopped at (if any) does not, and [prev] is the
    last node passed. *)
Lemma advance_chain h r c p ls xs fuel prev :
  chain h p ls xs -> (length ls <= fuel)%nat ->
  exists l1 l2 x1 x2 q,
    ls = l1 ++ l2 /\ xs = x1 ++ x2 /\
    lseg h p q l1 x1 /\ chain h q l2 x2 /\
    Forall (fun m => Seq.precedes m r c = true) x1 /\
    match x2 with
    | [] => True
    | m :: _ => Seq.precedes m r c = false
    end /\
    advance fuel h r c prev p = Some (from_option Some prev (last l1), q).
Proof.
  unfold chain. remember None as e eqn:He. intros H. revert fuel prev.
  induction H as [|a n e ls xs Ha Hseg IH]; intros fuel prev Hfuel.
  - subst. exists [], [], [], [], None. simpl.
    repeat split; try constructor. by destruct fuel.
  - destruct fuel as [|fuel]; [simpl in Hfuel; lia|]. simpl in *.
    rewrite Ha. simpl. rewrite precedes_abs.
    destruct (Seq.precedes (abs n) r c) eqn:Hp.
    + destruct (IH He fuel (Some a) ltac:(lia))
        as (l1 & l2 & x1 & x2 & q & -> & -> & H1 & H2 & Hall & Hhd & Hadv).
      exists (a :: l1), l2, (abs n :: x1), x2, q.
      repeat split; try done.
      * by econstructor.
      * by constructor.
      * rewrite Hadv. by rewrite from_last_cons.
    + exists [], (a :: ls), [], (abs n :: xs), (Some a). simpl.
      subst e. repeat split; try done.
      * constructor.
      * by econstructor.
Qed.

Lemma link_in_at n x1 x2 :
  Forall (fun m => Seq.precedes m (Seq.row n) (Seq.col n) = true) x1 ->
  match x2 with
  | [] => True
  | m :: _ => Seq.precedes m (Seq.row n) (Seq.col n) = false
  end ->
  Seq.link_in n (x1 ++ x2) = x1 ++ n :: x2.
Proof.
  induction 1 as [|m x1 Hm Hall IH]; intros Hhd; simpl.
  - destruct x2 as [|m x2]; [done|]. simpl. by rewrite Hhd.
  - rewrite Hm. by rewrite IH.
Qed.

(** *** Linking a new node into a chain *)

Lemma lookup_set_next h a q b :
  set_next a q h !! b =
  if decide (a = b)
  then (fun n => mkNode (row n) (col n) (value n) q) <$> h !! a
  else h !! b.
Proof. unfold set_next. by rewrite lookup_alter. Qed.

Lemma lookup_set_next_ne h a q b : a ≠ b -> set_next a q h !! b = h !! b.
Proof. intros. rewrite lookup_set_next. by case_decide. Qed.

(** Assigning [next] never touches a node's row, column or value, and never
    makes a node appear or disappear. *)
Lemma set_next_payload h a q b n :
  h !! b = Some n ->
  exists n', set_next a q h !! b = Some n' /\ abs n' = abs n.
Proof.
  intros Hb. rewrite lookup_set_next. case_decide as Hab.
  - subst. rewrite Hb. simpl. by eexists.
  - by eexists.
Qed.

Lemma dom_set_next h a q : dom (set_next a q h) = dom h.
Proof. unfold set_next. by rewrite dom_alter_L. Qed.

(** The two assignments that close [set_element]: [prev.next = new_node] (or
    [self.head = new_node] when there is no [prev]) and
    [new_node.next = current].  [l1] are the nodes the loop passed and [l2]
    those from [current] on. *)
Lemma link_segment h hd q l1 l2 x1 x2 new r c v :
  lseg h hd q l1 x1 -> chain h q l2 x2 ->
  NoDup (l1 ++ l2) -> new ∉ l1 ++ l2 ->
  h !! new = Some (mkNode r c v None) ->
  let h1 :=
    match last l1 with
    | Some p => set_next p (Some new) h
    | None => h
    end in
  let h2 := set_next new q h1 in
  chain h2 (match last l1 with Some _ => hd | None => Some new end)
        (l1 ++ new :: l2) (x1 ++ Seq.mkNode r c v :: x2) /\
  (forall a, a ≠ new -> a ∉ l1 -> h2 !! a = h !! a).
Proof.
  intros H1 H2 Hnd Hnew Hlook h1 h2.
  apply not_elem_of_app in Hnew as [Hnew1 Hnew2].
  apply NoDup_app in Hnd as (Hnd1 & Hdisj & Hnd2).
  assert (forall a, a ≠ new -> a ∉ l1 -> h2 !! a = h !! a) as Hframe.
  { intros a Ha Hal. unfold h2. rewrite lookup_set_next_ne by done.
    unfold h1. destruct (last l1) as [p|] eqn:Hlast; [|done].
    rewrite lookup_set_next_ne; [done|].
    intros ->. apply Hal. by apply last_Some_elem_of. }
  split; [|done].
  assert (chain h2 (Some new) (new :: l2) (Seq.mkNode r c v :: x2)) as Htail.
  { change (Seq.mkNode r c v) with (abs (mkNode r c v q)).
    econstructor.
    - unfold h2. rewrite lookup_set_next. rewrite decide_True by done.
      assert (h1 !! new = Some (mkNode r c v None)) as ->; [|done].
      unfold h1. destruct (last l1) as [p|] eqn:Hlast; [|done].
      rewrite lookup_set_next_ne; [done|].
      intros ->. apply Hnew1. by apply last_Some_elem_of.
    - simpl. eapply lseg_frame; [exact H2|].
      intros a Ha. apply Hframe.
      + intros ->. done.
      + intros Hal. by apply (Hdisj a). }
  destruct (last l1) as [p|] eqn:Hlast.
  - apply last_Some in Hlast as [l1' ->].
    apply lseg_snoc_inv in H1 as (np & x1' & -> & Hpre & Hp & Hq).
    apply NoDup_app in Hnd1 as (_ & Hp1 & _).
    rewrite <- !app_assoc. eapply lseg_app; [|eapply lseg_app; [|exact Htail]].
    + eapply lseg_frame; [exact Hpre|].
      intros a Ha. unfold h2, h1.
      rewrite !lookup_set_next_ne; [done|..].
      * intros ->. apply (Hp1 a Ha). apply list_elem_of_here.
      * intros ->. apply Hnew1. apply elem_of_app. by left.
    + change (abs np) with (abs (mkNode (row np) (col np) (value np) (Some new))).
      econstructor; [|constructor].
      unfold h2, h1. rewrite lookup_set_next_ne.
      * rewrite lookup_set_next, decide_True by done. by rewrite Hp.
      * intros ->. apply Hnew1. apply elem_of_app. right.
        apply list_elem_of_here.
  - apply last_None in Hlast as ->.
    inversion H1; subst. simpl. exact Htail.
Qed.

(** *** [set_element] and [get_element] on the store *)

Lemma get_element_rep st self ls M r c :
  rep st self ls M ->
  get_element st self r c = Some (Seq.get_element M r c, st).
Proof.
  intros (m & Hm & Hch & _). unfold get_element. rewrite Hm. simpl.
  erewrite scan_chain; [done..|]. by eapply chain_length.
Qed.

Lemma set_element_rep st self ls M r c v :
  rep st self ls M ->
  exists st' ls',
    set_element st self r c v = Some st' /\
    rep st' self ls' (Seq.set_element M r c v) /\
    set_element_effect st self ls v st' ls'.
Proof.
  intros (m & Hm & Hch & Hr & Hc).
  unfold set_element.
  destruct (Z.eqb_spec v 0) as [->|Hv].
  { exists st, ls. split; [done|]. split.
    - exists m. by rewrite set_element_zero_id.
    - split; try done. intros a n Ha. by exists n. }
  rewrite Hm. simpl.
  set (new := fresh (dom (nodes st))).
  set (node := mkNode r c v None).
  set (h := <[new := node]> (nodes st)).
  assert (new ∉ dom (nodes st)) as Hfresh by apply is_fresh.
  assert (nodes st !! new = None) as Hnone by by apply not_elem_of_dom.
  assert (nodes st ⊆ h) as Hsub by by apply insert_subseteq.
  assert (new ∉ ls) as Hnew.
  { intros Hin. apply Hfresh. by eapply lseg_in_dom. }
  assert (chain h (head m) ls (Seq.head M)) as Hch' by by eapply lseg_mono.
  assert (elem_of self (dom (matrices st))) as Hself
    by (apply elem_of_dom; by eexists).
  assert (Seq.head (Seq.set_element M r c v) =
          Seq.link_in (Seq.mkNode r c v) (Seq.head M)) as Hhead.
  { rewrite head_set_element. by destruct (Z.eqb_spec v 0). }
  assert (num_rows m = Seq.num_rows (Seq.set_element M r c v)) as Hr'
    by by rewrite num_rows_set_element.
  assert (num_cols m = Seq.num_cols (Seq.set_element M r c v)) as Hc'
    by by rewrite num_cols_set_element.
  destruct (head m) as [hd|] eqn:Hhd.
  - destruct (advance_chain h r c (Some hd) ls (Seq.head M) (size h) None
                Hch' (chain_length _ _ _ _ Hch'))
      as (l1 & l2 & x1 & x2 & q & -> & Hxs & H1 & H2 & Hall & Hstop & ->).
    simpl.
    destruct (link_segment h (Some hd) q l1 l2 x1 x2 new r c v H1 H2)
      as [Hlinked Hframe].
    { by eapply chain_NoDup. }
    { done. }
    { unfold h. by rewrite lookup_insert_eq. }
    replace (from_option Some None (last l1)) with (last l1)
      by by destruct (last l1).
    eexists _, (l1 ++ new :: l2). split; [done|]. split; [|split].
    + destruct (last l1) as [p|] eqn:Hlast; simpl.
      * exists m. rewrite Hhd. repeat split; try done.
        rewrite Hhead, Hxs. by rewrite link_in_at.
      * exists (set_head m (Some new)). simpl. rewrite lookup_insert_eq.
        repeat split; try done.
        rewrite Hhead, Hxs. by rewrite link_in_at.
    + done.
    + intros _. exists l1, l2. repeat split; simpl.
      rewrite dom_set_next.
      destruct (last l1); [rewrite dom_set_next|]; unfold h;
        by rewrite dom_insert_L.
    + intros a Ha Hal. simpl.
      assert (a ≠ new) as Hne by (by intros ->).
      rewrite Hframe; [|done|].
      * unfold h. by rewrite lookup_insert_ne.
      * intros Hl1. apply Hal. apply elem_of_app. by left.
    + intros a n Ha. simpl.
      assert (h !! a = Some n) as Ha' by by eapply lookup_weaken.
      destruct (last l1) as [p|].
      * destruct (set_next_payload h p (Some new) a n Ha') as (n1 & Hn1 & E1).
        destruct (set_next_payload _ new q a n1 Hn1) as (n2 & Hn2 & E2).
        exists n2. split; [done|congruence].
      * by apply set_next_payload.
    + intros s Hs. simpl.
      destruct (last l1); [done|]. by rewrite lookup_insert_ne.
    + simpl. destruct (last l1); [done|].
      rewrite dom_insert_L. apply subseteq_union_1_L.
      by apply singleton_subseteq_l.
  - inversion Hch'; subst.
    assert (Seq.head M = []) as HM by (by inversion Hch).
    eexists _, [new]. split; [done|]. split; [|split]; simpl.
    + exists (set_head m (Some new)). simpl. rewrite lookup_insert_eq.
      repeat split; try done. simpl. rewrite Hhead, HM. simpl.
      change (Seq.mkNode r c v) with (abs node).
      econstructor; [|constructor]. unfold h. by rewrite lookup_insert_eq.
    + done.
    + intros _. exists [], []. repeat split. unfold h.
      by rewrite dom_insert_L.
    + intros a Ha _. unfold h. rewrite lookup_insert_ne; [done|].
      by intros <-.
    + intros a n Ha. exists n. split; [|done]. by eapply lookup_weaken.
    + intros s Hs. by rewrite lookup_insert_ne.
    + rewrite dom_insert_L. apply subseteq_union_1_L.
      by apply singleton_subseteq_l.
Qed.

(** Reading back what was just written, on the store. *)
Lemma set_then_get_on_store st self ls M r c v :
  rep st self ls M -> v <> 0 ->
  exists st',
    set_element st self r c v = Some st' /\
    get_element st' self r c = Some (v, st').
Proof.
  intros Hrep Hv.
  destruct (set_element_rep st self ls M r c v Hrep)
    as (st' & ls' & Hset & Hrep' & _).
  exists st'. split; [done|].
  rewrite (get_element_rep _ _ _ _ _ _ Hrep').
  rewrite get_set_element, !Z.eqb_refl.
  by destruct (Z.eqb_spec v 0).
Qed.

(** *** The loops of the arithmetic methods

    While a method fills its result, the store [st0] it was called on is
    still there, object for object, and the chain of the result is made of
    objects created since. *)

Lemma building_start st r c :
  let '(result, st1) := SparseMatrix_new st r c in
  building st result st1 [] (Seq.SparseMatrix_new r c).
Proof.
  simpl. set (result := fresh (dom (matrices st))).
  assert (result ∉ dom (matrices st)) as Hfresh by apply is_fresh.
  split; simpl; try done.
  - apply insert_subseteq. by apply not_elem_of_dom.
  - eexists. simpl. rewrite lookup_insert_eq. repeat split. constructor.
  - intros a Ha. by inversion Ha.
Qed.

Lemma building_set_element st0 result st ls R r c v :
  building st0 result st ls R ->
  exists st' ls',
    set_element st result r c v = Some st' /\
    building st0 result st' ls' (Seq.set_element R r c v).
Proof.
  intros [Hn Hm Hrep Hnew Hres].
  destruct (set_element_rep st result ls R r c v Hrep)
    as (st' & ls' & Hset & Hrep' & Heff).
  exists st', ls'. split; [done|]. split; try done.
  - apply map_subseteq_spec. intros a n Ha.
    rewrite (effect_frame _ _ _ _ _ _ Heff).
    + by eapply lookup_weaken.
    + apply elem_of_dom. exists n. by eapply lookup_weaken.
    + intros Hin. apply (Hnew a Hin). apply elem_of_dom. by eexists.
  - apply map_subseteq_spec. intros s m Hs.
    rewrite (effect_matrices _ _ _ _ _ _ Heff).
    + by eapply lookup_weaken.
    + intros ->. apply Hres. apply elem_of_dom. by eexists.
  - intros a Ha. destruct (Z.eq_dec v 0) as [Hv|Hv].
    + destruct (effect_zero _ _ _ _ _ _ Heff Hv) as [_ ->]. by apply Hnew.
    + destruct (effect_link _ _ _ _ _ _ Heff Hv) as (l1 & l2 & -> & -> & _).
      apply elem_of_app in Ha as [Ha|Ha].
      * apply Hnew. apply elem_of_app. by left.
      * apply elem_of_cons in Ha as [->|Ha].
        -- intros Hin. apply (is_fresh (dom (nodes st))).
           revert Hin. apply subseteq_dom in Hn. apply Hn.
        -- apply Hnew. apply elem_of_app. by right.
Qed.

Lemma copy_loop_building st0 result cur lsA xsA :
  chain (nodes st0) cur lsA xsA ->
  forall fuel st ls R,
    (length lsA <= fuel)%nat ->
    building st0 result st ls R ->
    exists st' ls',
      copy_loop fuel st result cur = Some st' /\
      building st0 result st' ls' (Seq.copy_into R xsA).
Proof.
  unfold chain. remember None as e eqn:He.
  induction 1 as [|a n e lsA xsA Ha Hseg IH]; intros fuel st ls R Hfuel Hb.
  - subst. exists st, ls. split; [by destruct fuel|done].
  - destruct fuel as [|fuel]; [simpl in Hfuel; lia|]. simpl in *.
    rewrite (lookup_weaken _ _ _ _ Ha (building_nodes _ _ _ _ _ Hb)). simpl.
    destruct (building_set_element _ _ _ _ _ (row n) (col n) (value n) Hb)
      as (st1 & ls1 & -> & Hb1). simpl.
    rewrite (lookup_weaken _ _ _ _ Ha (building_nodes _ _ _ _ _ Hb1)). simpl.
    apply (IH He fuel st1 ls1); [lia|done].
Qed.

Lemma combine_loop_building op st0 result cur lsB xsB :
  chain (nodes st0) cur lsB xsB ->
  forall fuel st ls R,
    (length lsB <= fuel)%nat ->
    building st0 result st ls R ->
    exists st' ls',
      combine_loop op fuel st result cur = Some st' /\
      building st0 result st' ls' (Seq.combine_into op R xsB).
Proof.
  unfold chain. remember None as e eqn:He.
  induction 1 as [|a n e lsB xsB Ha Hseg IH]; intros fuel st ls R Hfuel Hb.
  - subst. exists st, ls. split; [by destruct fuel|done].
  - destruct fuel as [|fuel]; [simpl in Hfuel; lia|]. simpl in *.
    rewrite (lookup_weaken _ _ _ _ Ha (building_nodes _ _ _ _ _ Hb)). simpl.
    rewrite (get_element_rep _ _ _ _ _ _ (building_rep _ _ _ _ _ Hb)). simpl.
    destruct (building_set_element _ _ _ _ _ (row n) (col n)
                (op (Seq.get_element R (row n) (col n)) (value n)) Hb)
      as (st1 & ls1 & -> & Hb1). simpl.
    rewrite (lookup_weaken _ _ _ _ Ha (building_nodes _ _ _ _ _ Hb1)). simpl.
    apply (IH He fuel st1 ls1); [lia|done].
Qed.

Lemma multiply_inner_building st0 result a na cur lsB xsB :
  nodes st0 !! a = Some na ->
  chain (nodes st0) cur lsB xsB ->
  forall fuel st ls R,
    (length lsB <= fuel)%nat ->
    building st0 result st ls R ->
    exists st' ls',
      multiply_inner fuel st result a cur = Some st' /\
      building st0 result st' ls' (Seq.multiply_row (abs na) R xsB).
Proof.
  intros Hna. unfold chain. remember None as e eqn:He.
  induction 1 as [|b nb e lsB xsB Hb Hseg IH]; intros fuel st ls R Hfuel Hbd.
  - subst. exists st, ls. split; [by destruct fuel|done].
  - destruct fuel as [|fuel]; [simpl in Hfuel; lia|]. simpl in *.
    rewrite (lookup_weaken _ _ _ _ Hna (building_nodes _ _ _ _ _ Hbd)). simpl.
    rewrite (lookup_weaken _ _ _ _ Hb (building_nodes _ _ _ _ _ Hbd)). simpl.
    destruct (col na =? row nb).
    + rewrite (get_element_rep _ _ _ _ _ _ (building_rep _ _ _ _ _ Hbd)).
      simpl.
      destruct (building_set_element _ _ _ _ _ (row na) (col nb)
                  (Seq.get_element R (row na) (col nb) + value na * value nb)
                  Hbd)
        as (st1 & ls1 & -> & Hb1). simpl.
      rewrite (lookup_weaken _ _ _ _ Hb (building_nodes _ _ _ _ _ Hb1)).
      simpl. apply (IH He fuel st1 ls1); [lia|done].
    + simpl.
      rewrite (lookup_weaken _ _ _ _ Hb (building_nodes _ _ _ _ _ Hbd)).
      simpl. apply (IH He fuel st ls); [lia|done].
Qed.

Lemma multiply_outer_building st0 result other mB lsB xsB cur lsA xsA :
  matrices st0 !! other = Some mB ->
  chain (nodes st0) (head mB) lsB xsB ->
  chain (nodes st0) cur lsA xsA ->
  forall fuel fuel_inner st ls R,
    (length lsA <= fuel)%nat -> (length lsB <= fuel_inner)%nat ->
    building st0 result st ls R ->
    exists st' ls',
      multiply_outer fuel fuel_inner st result other cur = Some st' /\
      building st0 result st' ls'
        (fold_left (fun res a => Seq.multiply_row a res xsB) xsA R).
Proof.
  intros HmB HchB. unfold chain. remember None as e eqn:He.
  induction 1 as [|a na e lsA xsA Ha Hseg IH];
    intros fuel fuel_inner st ls R Hfuel Hinner Hbd.
  - subst. exists st, ls. split; [by destruct fuel|done].
  - destruct fuel as [|fuel]; [simpl in Hfuel; lia|]. simpl in *.
    rewrite (lookup_weaken _ _ _ _ HmB (building_matrices _ _ _ _ _ Hbd)).
    simpl.
    destruct (multiply_inner_building st0 result a na (head mB) lsB xsB
                Ha HchB fuel_inner st ls R Hinner Hbd)
      as (st1 & ls1 & -> & Hb1). simpl.
    rewrite (lookup_weaken _ _ _ _ Ha (building_nodes _ _ _ _ _ Hb1)). simpl.
    apply (IH He fuel fuel_inner st1 ls1); [lia|done..].
Qed.

(** *** The arithmetic methods on the store *)

Lemma rep_mono st st' self ls M :
  nodes st ⊆ nodes st' -> matrices st ⊆ matrices st' ->
  rep st self ls M -> rep st' self ls M.
Proof.
  intros Hn Hm (m & Hself & Hch & Hdims). exists m. split; [|split; [|done]].
  - by eapply lookup_weaken.
  - by eapply lseg_mono.
Qed.

Lemma building_returns st result st' ls R :
  building st result st' ls R -> returns st (inr result) st' (inr R).
Proof.
  intros [Hn Hm Hrep Hnew Hres]. repeat split; try done. by exists ls.
Qed.

Lemma add_sub_rep op message st self other lsA lsB A B :
  rep st self lsA A -> rep st other lsB B ->
  exists out st',
    add_sub op message st self other = Some (out, st') /\
    returns st out st'
      (if negb (Seq.num_rows A =? Seq.num_rows B)
          || negb (Seq.num_cols A =? Seq.num_cols B)
       then inl (Seq.ValueError message)
       else inr (Seq.combine_into op
                   (Seq.copy_into
                      (Seq.SparseMatrix_new (Seq.num_rows A) (Seq.num_cols A))
                      (Seq.head A))
                   (Seq.head B))).
Proof.
  intros (mA & HmA & HchA & HrA & HcA) (mB & HmB & HchB & HrB & HcB).
  unfold add_sub. rewrite HmA, HmB. simpl.
  rewrite HrA, HrB, HcA, HcB.
  destruct (negb _ || negb _).
  { do 2 eexists. split; [done|]. by repeat split. }
  pose proof (building_start st (Seq.num_rows A) (Seq.num_cols A)) as Hb0.
  simpl in Hb0.
  pose proof (lookup_weaken _ _ _ _ HmA (building_matrices _ _ _ _ _ Hb0))
    as HmA1.
  simpl in HmA1. simpl. rewrite HmA1. simpl.
  destruct (copy_loop_building st _ _ _ _ HchA (size (nodes st)) _ _ _
              (chain_length _ _ _ _ HchA) Hb0)
    as (st1 & ls1 & -> & Hb1). simpl.
  rewrite (lookup_weaken _ _ _ _ HmB (building_matrices _ _ _ _ _ Hb1)).
  simpl.
  destruct (combine_loop_building op st _ _ _ _ HchB (size (nodes st)) _ _ _
              (chain_length _ _ _ _ HchB) Hb1)
    as (st2 & ls2 & -> & Hb2). simpl.
  do 2 eexists. split; [done|]. by eapply building_returns.
Qed.

Lemma add_rep st self other lsA lsB A B :
  rep st self lsA A -> rep st other lsB B ->
  exists out st',
    add st self other = Some (out, st') /\
    returns st out st' (Seq.add A B).
Proof. apply add_sub_rep. Qed.

Lemma subtract_rep st self other lsA lsB A B :
  rep st self lsA A -> rep st other lsB B ->
  exists out st',
    subtract st self other = Some (out, st') /\
    returns st out st' (Seq.subtract A B).
Proof. apply add_sub_rep. Qed.

Lemma multiply_rep st self other lsA lsB A B :
  rep st self lsA A -> rep st other lsB B ->
  exists out st',
    multiply st self other = Some (out, st') /\
    returns st out st' (Seq.multiply A B).
Proof.
  intros (mA & HmA & HchA & HrA & HcA) (mB & HmB & HchB & HrB & HcB).
  unfold multiply, Seq.multiply. rewrite HmA, HmB. simpl.
  rewrite HrA, HrB, HcA, HcB.
  destruct (negb _).
  { do 2 eexists. split; [done|]. by repeat split. }
  pose proof (building_start st (Seq.num_rows A) (Seq.num_cols B)) as Hb0.
  simpl in Hb0.
  pose proof (lookup_weaken _ _ _ _ HmA (building_matrices _ _ _ _ _ Hb0))
    as HmA1.
  simpl in HmA1. simpl. rewrite HmA1. simpl.
  destruct (multiply_outer_building st _ other mB lsB _ _ _ _ HmB HchB HchA
              (size (nodes st)) (size (nodes st)) _ _ _
              (chain_length _ _ _ _ HchA) (chain_length _ _ _ _ HchB) Hb0)
    as (st1 & ls1 & -> & Hb1). simpl.
  do 2 eexists. split; [done|]. by eapply building_returns.
Qed.

(** *** A concrete store *)

(** [store1] is what the constructor and [set_element] leave when called on
    the empty store. *)
Lemma store1_built :
  let '(a, st) := SparseMatrix_new (mkStore ∅ ∅) 2 2 in
  let '(b, st) := SparseMatrix_new st 2 2 in
  (st ← set_element st a 1 1 7;
   st ← set_element st a 0 0 5;
   st ← set_element st b 0 0 5;
   Some (a, b, st)) = Some (1%positive, 2%positive, store1).
Proof. vm_compute. reflexivity. Qed.

Lemma rep_store1_matrix1 :
  rep store1 1%positive [2%positive; 1%positive] matrix1.
Proof.
  exists (mkSparseMatrix (Some 2%positive) 2 2). repeat split.
  change (Seq.head matrix1)
    with [abs (mkNode 0 0 5 (Some 1%positive)); abs (mkNode 1 1 7 None)].
  unfold chain. econstructor; [reflexivity|]. simpl.
  econstructor; [reflexivity|]. constructor.
Defined.

Lemma rep_store1_matrix2 :
  rep store1 2%positive [3%positive] matrix2.
Proof.
  exists (mkSparseMatrix (Some 3%positive) 2 2). repeat split.
  change (Seq.head matrix2) with [abs (mkNode 0 0 5 None)].
  unfold chain. econstructor; [reflexivity|]. constructor.
Defined.

(** *** Reading an element *)

(** C5. On any matrix object of a store, and for any pair of integers (in
    range or not), [get_element] returns the value of the first node of the
    chain at those coordinates, or 0 when there is none; it always returns,
    and the store it leaves is the store it was called on. *)
Theorem get_element_first_match st self ls M r c :
  rep st self ls M ->
  get_element st self r c =
  Some (from_option Seq.value 0 (find (Seq.at_coord r c) (Seq.head M)), st).
Proof.
  intros Hrep. rewrite (get_element_rep _ _ _ _ _ _ Hrep).
  unfold Seq.get_element. by rewrite scan_find.
Qed.

Lemma get_element_first_match_witness :
  get_element store1 1%positive 1 1 = Some (7, store1) /\
  get_element store1 1%positive 9 (-4) = Some (0, store1).
Proof.
  split.
  - exact (get_element_first_match store1 1%positive _ matrix1 1 1
             rep_store1_matrix1).
  - exact (get_element_first_match store1 1%positive _ matrix1 9 (-4)
             rep_store1_matrix1).
Defined.

(** *** No node is ever removed *)

Lemma returns_keeps_operands method st self other lsA lsB A B spec :
  rep st self lsA A -> rep st other lsB B ->
  (exists out st',
     method st self other = Some (out, st') /\ returns st out st' spec) ->
  keeps_operands method st self other lsA lsB A B.
Proof.
  intros HA HB (out & st' & Hcall & Hn & Hm & _).
  exists out, st'. repeat split; try done; by eapply rep_mono.
Qed.

(** C10. [set_element] with a non-zero value creates exactly one node object
    and links it between two parts of the chain, whatever the chain already
    holds at that cell; with zero it leaves the store as it is; either way
    every node object keeps its row, column and value and the chain of [self]
    loses none.  [get_element] leaves the store as it is.  [add], [subtract]
    and [multiply] leave every object of the store they were called on as it
    was, so that both operands are still the same chains. *)
Theorem no_operation_removes_a_node st self other lsA lsB A B r c v :
  rep st self lsA A -> rep st other lsB B ->
  (exists st' ls',
     set_element st self r c v = Some st' /\
     rep st' self ls' (Seq.set_element A r c v) /\
     set_element_effect st self lsA v st' ls' /\
     length ls' = (if v =? 0 then length lsA else S (length lsA)) /\
     (forall a, a ∈ lsA -> a ∈ ls')) /\
  (exists x, get_element st self r c = Some (x, st)) /\
  keeps_operands add st self other lsA lsB A B /\
  keeps_operands subtract st self other lsA lsB A B /\
  keeps_operands multiply st self other lsA lsB A B.
Proof.
  intros HA HB. split; [|split; [|split; [|split]]].
  - destruct (set_element_rep st self lsA A r c v HA)
      as (st' & ls' & Hset & Hrep & Heff).
    exists st', ls'. do 3 (split; [done|]). split.
    + destruct (Z.eqb_spec v 0) as [Hv|Hv].
      * by destruct (effect_zero _ _ _ _ _ _ Heff Hv) as [_ ->].
      * destruct (effect_link _ _ _ _ _ _ Heff Hv) as (l1 & l2 & -> & -> & _).
        rewrite !length_app. simpl. lia.
    + intros a Ha. destruct (Z.eq_dec v 0) as [Hv|Hv].
      * by destruct (effect_zero _ _ _ _ _ _ Heff Hv) as [_ ->].
      * destruct (effect_link _ _ _ _ _ _ Heff Hv) as (l1 & l2 & -> & -> & _).
        apply elem_of_app in Ha as [Ha|Ha]; apply elem_of_app; [by left|].
        right. by apply list_elem_of_further.
  - eexists. by eapply get_element_rep.
  - eapply returns_keeps_operands; [done..|]. by eapply add_rep.
  - eapply returns_keeps_operands; [done..|]. by eapply subtract_rep.
  - eapply returns_keeps_operands; [done..|]. by eapply multiply_rep.
Qed.

Lemma no_operation_removes_a_node_witness :
  rep store1 1%positive [2%positive; 1%positive] matrix1 /\
  rep store1 2%positive [3%positive] matrix2 /\
  (exists st' ls',
     set_element store1 1%positive 0 0 9 = Some st' /\
     rep st' 1%positive ls' (Seq.set_element matrix1 0 0 9) /\
     set_element_effect store1 1%positive [2%positive; 1%positive] 9 st' ls' /\
     length ls' = 3%nat /\
     (forall a, a ∈ [2%positive; 1%positive] -> a ∈ ls')) /\
  (exists x, get_element store1 1%positive 0 0 = Some (x, store1)) /\
  keeps_operands add store1 1%positive 2%positive
    [2%positive; 1%positive] [3%positive] matrix1 matrix2 /\
  keeps_operands subtract store1 1%positive 2%positive
    [2%positive; 1%positive] [3%positive] matrix1 matrix2 /\
  keeps_operands multiply store1 1%positive 2%positive
    [2%positive; 1%positive] [3%positive] matrix1 matrix2.
Proof.
  split; [exact rep_store1_matrix1|]. split; [exact rep_store1_matrix2|].
  exact (no_operation_removes_a_node store1 1%positive 2%positive _ _
           matrix1 matrix2 0 0 9 rep_store1_matrix1 rep_store1_matrix2).
Defined.

End HeapFacts.

(** ** Further facts about the sequence-level methods *)

Section MoreSeqFacts.
Import Seq Cells.

(** *** Element access *)

(** X1. [set_element] at one cell leaves what [get_element] answers at every
    other cell. *)
Theorem set_element_other_cell self r c v r' c' :
  r <> r' \/ c <> c' ->
  get_element (set_element self r c v) r' c' = get_element self r' c'.
Proof.
  intros Hne. rewrite get_set_element.
  replace ((r =? r') && (c =? c')) with false by lia.
  by rewrite orb_true_r.
Qed.

Lemma set_element_other_cell_witness :
  get_element (set_element (matrix_of [(0, 0, 7); (1, 2, 4)] 2 3) 0 0 9) 1 2 =
  get_element (matrix_of [(0, 0, 7); (1, 2, 4)] 2 3) 1 2.
Proof. apply set_element_other_cell. right. lia. Defined.

(** *** Filling a matrix *)

Lemma entries_set_element self r c v :
  entries (set_element self r c v) ≡ₚ
  (if v =? 0 then [] else [(r, c, v)]) ++ entries self.
Proof.
  unfold entries. rewrite head_set_element.
  destruct (v =? 0); [done|]. by rewrite link_in_perm.
Qed.

(** X2. After any sequence of [set_element] calls, the chain holds the
    triples it held before and the triples of the calls with a non-zero
    value, each once for each call: nothing is dropped, merged or made up. *)
Theorem set_all_entries self ops :
  entries (set_all self ops) ≡ₚ stored_triples ops ++ entries self.
Proof.
  revert self. induction ops as [|[[r c] v] ops IH]; intros self; [done|].
  simpl. unfold set_all in *. rewrite IH, entries_set_element.
  destruct (v =? 0); simpl; [done|].
  by rewrite <- Permutation_middle.
Qed.

(** *** Addition *)

(** Closed chains: one node per cell, by inspection. *)
Ltac concrete_one_per_coord :=
  unfold one_per_coord; simpl;
  repeat (apply NoDup_cons; split;
          [rewrite ?not_elem_of_cons; repeat split;
           try discriminate; apply not_elem_of_nil|]);
  apply NoDup_nil; exact I.

(** Closed chains: strictly increasing, and without zero, by inspection. *)
Ltac concrete_increasing :=
  unfold strictly_increasing; simpl;
  repeat (apply SSorted_cons;
          [|repeat (apply List.Forall_cons;
                    [unfold coord_lt; simpl; lia|]);
            apply List.Forall_nil]);
  apply SSorted_nil.

Ltac concrete_nonzero :=
  simpl; repeat (apply List.Forall_cons; [simpl; lia|]);
  apply List.Forall_nil.

(** X4. When each operand holds one node per cell and the two values at a
    cell do not cancel, the result of [add] answers their sum at that cell
    (a cell held by neither operand answers 0). *)
Theorem add_cell_sum self other r c :
  one_per_coord (head self) -> one_per_coord (head other) ->
  num_rows self = num_rows other -> num_cols self = num_cols other ->
  get_element self r c + get_element other r c <> 0 \/
  get_element self r c = 0 ->
  exists result,
    add self other = inr result /\
    get_element result r c = get_element self r c + get_element other r c.
Proof.
  intros Hs Ho Hr Hc Hsum.
  destruct (add_cells self other Hs Ho Hr Hc) as (result & Hadd & Hcells).
  exists result. split; [done|]. rewrite Hcells. simpl.
  destruct (Z.eqb_spec (get_element self r c + get_element other r c) 0); lia.
Qed.

Lemma add_cell_sum_witness :
  exists result,
    add (matrix_of [(0, 0, 7); (1, 2, 4)] 2 3)
        (matrix_of [(1, 2, -9); (0, 1, 3)] 2 3) = inr result /\
    get_element result 1 2 =
    get_element (matrix_of [(0, 0, 7); (1, 2, 4)] 2 3) 1 2 +
    get_element (matrix_of [(1, 2, -9); (0, 1, 3)] 2 3) 1 2.
Proof.
  apply add_cell_sum; try reflexivity.
  - concrete_one_per_coord.
  - concrete_one_per_coord.
  - left. vm_compute. discriminate.
Defined.

(** The second loop of [add] on nodes that all come after what the result
    holds: each cell reads 0 and the node is linked at the end. *)
Lemma combine_add_increasing l res :
  strictly_increasing (head res ++ l) ->
  Forall (fun n => value n <> 0) l ->
  head (combine_into Z.add res l) = head res ++ l.
Proof.
  revert res. induction l as [|n l IH]; intros res Hs Hv; simpl.
  - by rewrite app_nil_r.
  - apply Forall_cons in Hv as [Hn Hv].
    assert (get_element res (row n) (col n) = 0) as Hget.
    { unfold get_element. apply scan_absent. intros Hin.
      apply list_elem_of_fmap in Hin as (m & Hc & Hm).
      pose proof (StronglySorted_app_1_elem_of _ _ _ m n Hs Hm
                    ltac:(apply list_elem_of_here)) as Hlt.
      unfold coord in Hc. injection Hc as Hr Hc.
      unfold coord_lt in Hlt. lia. }
    assert (head (set_element res (row n) (col n) (0 + value n)) =
            head res ++ [n]) as Hhead.
    { rewrite head_set_element, Z.add_0_l.
      destruct (Z.eqb_spec (value n) 0) as [|_]; [done|].
      destruct n as [r c v]; simpl.
      apply link_in_last. apply Forall_forall. intros m Hm.
      eapply (StronglySorted_app_1_elem_of _ _ _ m _ Hs); [done|].
      apply list_elem_of_here. }
    unfold combine_into in *. rewrite Hget, IH; [|rewrite Hhead|done].
    + rewrite Hhead. by rewrite <- app_assoc.
    + by rewrite <- app_assoc.
Qed.

(** X5. Adding a matrix that holds no node, on either side, to a matrix whose
    chain is strictly increasing with non-zero values returns a matrix with
    exactly that chain and those dimensions. *)
Theorem add_empty self :
  strictly_increasing (head self) ->
  Forall (fun n => value n <> 0) (head self) ->
  let empty := SparseMatrix_new (num_rows self) (num_cols self) in
  add self empty = inr self /\ add empty self = inr self.
Proof.
  intros Hs Hv empty. unfold add, empty. simpl. rewrite !Z.eqb_refl. simpl.
  pose proof (copy_into_increasing (head self)
                (SparseMatrix_new (num_rows self) (num_cols self)) Hs Hv)
    as Hcopy.
  pose proof (same_dims_copy_into
                (SparseMatrix_new (num_rows self) (num_cols self))
                (head self) _ (conj eq_refl eq_refl)) as [Hr Hc].
  pose proof (combine_add_increasing (head self)
                (SparseMatrix_new (num_rows self) (num_cols self)) Hs Hv)
    as Hcomb.
  pose proof (same_dims_combine_into
                (SparseMatrix_new (num_rows self) (num_cols self)) Z.add
                (head self) _ (conj eq_refl eq_refl)) as [Hr' Hc'].
  simpl in *. split; f_equal.
  - destruct (copy_into _ _) as [h nr nc]. destruct self. simpl in *.
    by subst.
  - destruct (combine_into _ _ _) as [h nr nc]. destruct self. simpl in *.
    by subst.
Qed.

Lemma add_empty_witness :
  let self := matrix_of [(1, 2, 4); (0, 0, 7)] 2 3 in
  let empty := SparseMatrix_new 2 3 in
  add self empty = inr self /\ add empty self = inr self.
Proof.
  apply (add_empty (matrix_of [(1, 2, 4); (0, 0, 7)] 2 3)).
  - concrete_increasing.
  - concrete_nonzero.
Defined.

(** *** Subtraction *)

(** X6. When each operand holds one node per cell and the two values at a
    cell differ, the result of [subtract] answers their difference at that
    cell. *)
Theorem subtract_cell_difference self other r c :
  one_per_coord (head self) -> one_per_coord (head other) ->
  num_rows self = num_rows other -> num_cols self = num_cols other ->
  get_element self r c <> get_element other r c ->
  exists result,
    subtract self other = inr result /\
    get_element result r c = get_element self r c - get_element other r c.
Proof.
  intros Hs Ho Hr Hc Hne.
  destruct (subtract_cells self other Hs Ho Hr Hc) as (result & Hsub & Hcells).
  exists result. split; [done|]. rewrite Hcells. simpl.
  destruct (Z.eqb_spec (get_element self r c - get_element other r c) 0); lia.
Qed.

Lemma subtract_cell_difference_witness :
  exists result,
    subtract (matrix_of [(0, 0, 7); (1, 2, 4)] 2 3)
             (matrix_of [(1, 2, 9); (0, 1, 3)] 2 3) = inr result /\
    get_element result 1 2 =
    get_element (matrix_of [(0, 0, 7); (1, 2, 4)] 2 3) 1 2 -
    get_element (matrix_of [(1, 2, 9); (0, 1, 3)] 2 3) 1 2.
Proof.
  apply subtract_cell_difference; try reflexivity.
  - concrete_one_per_coord.
  - concrete_one_per_coord.
  - vm_compute. discriminate.
Defined.

(** *** Multiplication *)

Lemma get_multiply_row a lb res r c :
  get_element (multiply_row a res lb) r c =
  fold_left accumulate (cell_products [a] lb r c) (get_element res r c).
Proof.
  unfold cell_products. simpl. rewrite app_nil_r.
  revert res. induction lb as [|b lb IH]; intros res; [done|].
  simpl. unfold multiply_row in *.
  destruct (col a =? row b) eqn:Hab; simpl.
  - rewrite IH, get_set_element.
    destruct ((row a =? r) && (col b =? c)) eqn:Hrc; simpl.
    + assert (row a = r /\ col b = c) as [-> ->] by lia.
      by rewrite orb_false_r.
    + by rewrite orb_true_r.
  - apply IH.
Qed.

Lemma cell_products_cons a la lb r c :
  cell_products (a :: la) lb r c =
  cell_products [a] lb r c ++ cell_products la lb r c.
Proof. unfold cell_products. simpl. by rewrite app_nil_r. Qed.

Lemma get_multiply_rows la lb res r c :
  get_element (fold_left (fun res a => multiply_row a res lb) la res) r c =
  fold_left accumulate (cell_products la lb r c) (get_element res r c).
Proof.
  revert res. induction la as [|a la IH]; intros res; [done|].
  rewrite (cell_products_cons a la), fold_left_app. simpl.
  by rewrite IH, get_multiply_row.
Qed.

(** X7. For operands of matching inner dimensions, whatever their chains
    hold, [multiply] returns a matrix that answers at every cell (r, c) the
    accumulation, from 0 and in loop order, of the products
    [a.value * b.value] over the pairs of nodes with [a.row = r],
    [a.col = b.row] and [b.col = c]; a product that brings the running sum to
    zero is skipped. *)
Theorem multiply_cell self other :
  num_cols self = num_rows other ->
  exists result,
    multiply self other = inr result /\
    forall r c,
      get_element result r c =
      fold_left accumulate (cell_products (head self) (head other) r c) 0.
Proof.
  intros Hdim. unfold multiply. rewrite Hdim, Z.eqb_refl. simpl.
  eexists. split; [done|]. intros r c. by rewrite get_multiply_rows.
Qed.

Lemma multiply_cell_witness :
  exists result,
    multiply (matrix_of [(0, 0, 2); (0, 1, 3)] 1 2)
             (matrix_of [(0, 0, 4); (1, 0, 5)] 2 1) = inr result /\
    forall r c,
      get_element result r c =
      fold_left accumulate
        (cell_products (head (matrix_of [(0, 0, 2); (0, 1, 3)] 1 2))
                       (head (matrix_of [(0, 0, 4); (1, 0, 5)] 2 1)) r c) 0.
Proof. apply multiply_cell. reflexivity. Defined.

Lemma accumulate_positive l acc :
  0 <= acc -> Forall (fun p => 0 < p) l ->
  fold_left accumulate l acc = acc + sum_list l.
Proof.
  revert acc. induction l as [|p l IH]; intros acc Hacc Hl; simpl; [lia|].
  apply Forall_cons in Hl as [Hp Hl].
  unfold accumulate at 2. destruct (Z.eqb_spec (acc + p) 0); [lia|].
  rewrite IH by (done || lia). lia.
Qed.

Lemma cell_products_positive la lb r c :
  Forall (fun n => 0 < value n) la -> Forall (fun n => 0 < value n) lb ->
  Forall (fun p => 0 < p) (cell_products la lb r c).
Proof.
  intros Ha Hb. unfold cell_products.
  apply Forall_flat_map. eapply Forall_impl; [exact Ha|].
  intros a Hpa. simpl in Hpa.
  apply Forall_flat_map. eapply Forall_impl; [exact Hb|].
  intros b Hpb. simpl in Hpb.
  destruct (_ && _); constructor; [nia|constructor].
Qed.

(** X8. When every value stored in the two operands is positive, no running
    sum is ever zero and the result of [multiply] answers at every cell the
    plain sum of those products. *)
Theorem multiply_positive_cell self other :
  num_cols self = num_rows other ->
  Forall (fun n => 0 < value n) (head self) ->
  Forall (fun n => 0 < value n) (head other) ->
  exists result,
    multiply self other = inr result /\
    forall r c,
      get_element result r c =
      sum_list (cell_products (head self) (head other) r c).
Proof.
  intros Hdim Ha Hb. unfold multiply. rewrite Hdim, Z.eqb_refl. simpl.
  eexists. split; [done|]. intros r c. rewrite get_multiply_rows.
  rewrite accumulate_positive; [done|done|].
  by apply cell_products_positive.
Qed.

Lemma multiply_positive_cell_witness :
  exists result,
    multiply (matrix_of [(0, 0, 2); (0, 1, 3)] 1 2)
             (matrix_of [(0, 0, 4); (1, 0, 5)] 2 1) = inr result /\
    forall r c,
      get_element result r c =
      sum_list
        (cell_products (head (matrix_of [(0, 0, 2); (0, 1, 3)] 1 2))
                       (head (matrix_of [(0, 0, 4); (1, 0, 5)] 2 1)) r c).
Proof.
  apply multiply_positive_cell; [reflexivity|..]; concrete_nonzero.
Defined.

(** X9. With an operand that holds no node, on either side, [multiply]
    returns a matrix that holds no node. *)
Theorem multiply_empty self other :
  num_cols self = num_rows other ->
  head self = [] \/ head other = [] ->
  multiply self other =
  inr (SparseMatrix_new (num_rows self) (num_cols other)).
Proof.
  intros Hdim Hempty. unfold multiply. rewrite Hdim, Z.eqb_refl. simpl.
  f_equal. destruct Hempty as [-> | ->]; [done|].
  by apply (fold_left_invariant
              (fun m => m = SparseMatrix_new (num_rows self) (num_cols other))).
Qed.

Lemma multiply_empty_witness :
  multiply (matrix_of [(0, 0, 2); (0, 1, 3)] 1 2) (SparseMatrix_new 2 5) =
  inr (SparseMatrix_new 1 5).
Proof.
  apply (multiply_empty (matrix_of [(0, 0, 2); (0, 1, 3)] 1 2)
           (SparseMatrix_new 2 5)); [reflexivity|].
  right. reflexivity.
Defined.

(** *** Order of the chain *)

(** X3. [set_element] keeps a chain whose coordinates never decrease and
    whose values are non-zero that way, whatever calls are made. *)
Theorem set_all_keeps_order self ops :
  ordered (head self) -> ordered (head (set_all self ops)).
Proof.
  intros Hord. unfold set_all.
  apply (fold_left_invariant (fun m => ordered (head m))); [done|].
  intros m [[r c] v] Hm. by apply ordered_set_element.
Qed.

Lemma set_all_keeps_order_witness :
  ordered (head (set_all (SparseMatrix_new 3 3)
                   [(2, 1, 5); (0, 0, 1); (2, 1, -4); (1, 2, 0)])).
Proof. apply set_all_keeps_order. split; constructor. Defined.

Lemma ordered_arithmetic_loops op self other res :
  ordered (head res) ->
  ordered (head (combine_into op (copy_into res (head self)) (head other))).
Proof.
  intros Hres. unfold combine_into, copy_into.
  apply (fold_left_invariant (fun m => ordered (head m))).
  - apply (fold_left_invariant (fun m => ordered (head m))); [done|].
    intros. by apply ordered_set_element.
  - intros. by apply ordered_set_element.
Qed.

(** X10. Whatever the chains of the operands look like, the matrix that
    [add], [subtract] or [multiply] returns has a chain whose coordinates
    never decrease and whose values are all non-zero. *)
Theorem arithmetic_result_ordered self other result :
  add self other = inr result \/
  subtract self other = inr result \/
  multiply self other = inr result ->
  ordered (head result).
Proof.
  assert (ordered []) as Hnil by (split; constructor).
  unfold add, subtract, multiply.
  intros [H | [H | H]]; destruct (_ : bool); try discriminate;
    injection H as <-.
  - by apply ordered_arithmetic_loops.
  - by apply ordered_arithmetic_loops.
  - apply (fold_left_invariant (fun m => ordered (head m))); [done|].
    intros m a Hm. unfold multiply_row.
    apply (fold_left_invariant (fun m => ordered (head m))); [done|].
    intros m' b Hm'. destruct (_ =? _); [|done].
    by apply ordered_set_element.
Qed.

Lemma arithmetic_result_ordered_witness :
  ordered
    (head (mkSparseMatrix [mkNode 0 0 23; mkNode 0 0 8] 1 1)).
Proof.
  apply (arithmetic_result_ordered
           (matrix_of [(0, 0, 2); (0, 1, 3)] 1 2)
           (matrix_of [(0, 0, 4); (1, 0, 5)] 2 1)).
  right. right. reflexivity.
Defined.

(** *** Witnesses for the facts above on repeated cells and cancellation *)

Lemma add_cells_commute_witness :
  exists ab ba,
    add (matrix_of [(0, 0, 7); (1, 2, 4)] 2 3)
        (matrix_of [(1, 2, -9); (0, 1, 3)] 2 3) = inr ab /\
    add (matrix_of [(1, 2, -9); (0, 1, 3)] 2 3)
        (matrix_of [(0, 0, 7); (1, 2, 4)] 2 3) = inr ba /\
    get_element ab 1 2 =
      get_element (matrix_of [(0, 0, 7); (1, 2, 4)] 2 3) 1 2 +
      get_element (matrix_of [(1, 2, -9); (0, 1, 3)] 2 3) 1 2 /\
    get_element ba 1 2 = get_element ab 1 2.
Proof.
  apply add_cells_commute; try reflexivity.
  - concrete_one_per_coord.
  - concrete_one_per_coord.
  - vm_compute. discriminate.
Defined.

Lemma subtract_self_keeps_all_witness :
  subtract (matrix_of [(1, 2, 4); (0, 0, 7)] 2 3)
           (matrix_of [(1, 2, 4); (0, 0, 7)] 2 3) =
  inr (mkSparseMatrix [mkNode 0 0 7; mkNode 1 2 4] 2 3).
Proof.
  apply (subtract_self_keeps_all (matrix_of [(1, 2, 4); (0, 0, 7)] 2 3)).
  - concrete_increasing.
  - concrete_nonzero.
Defined.


End MoreSeqFacts.

(** ** Further facts about the linked objects *)

Section MoreHeapFacts.
Import Heap.

Lemma rep_in_dom st self ls M a :
  rep st self ls M -> a ∈ ls -> a ∈ dom (nodes st).
Proof. intros (m & _ & Hch & _) Ha. by eapply lseg_in_dom. Qed.

Lemma rep_self_in_dom st self ls M :
  rep st self ls M -> self ∈ dom (matrices st).
Proof. intros (m & Hm & _). apply elem_of_dom. by eexists. Qed.

(** A call of [set_element] on one matrix object leaves every matrix object
    whose chain shares no node with it as it was. *)
Lemma set_element_frame_rep st target lsT v st' lsT' s ls M :
  set_element_effect st target lsT v st' lsT' ->
  rep st s ls M -> s ≠ target -> (forall a, a ∈ ls -> a ∉ lsT) ->
  rep st' s ls M.
Proof.
  intros Heff Hrep Hne Hapart.
  pose proof Hrep as (m & Hm & Hch & Hdims).
  exists m. split; [|split; [|done]].
  - by rewrite (effect_matrices _ _ _ _ _ _ Heff).
  - eapply lseg_frame; [exact Hch|].
    intros a Ha. apply (effect_frame _ _ _ _ _ _ Heff).
    + by eapply rep_in_dom.
    + by apply Hapart.
Qed.

(** What the three arithmetic methods have in common once they returned. *)
Lemma arithmetic_returns st self other lsA lsB A B out st' :
  rep st self lsA A -> rep st other lsB B ->
  add st self other = Some (out, st') \/
  subtract st self other = Some (out, st') \/
  multiply st self other = Some (out, st') ->
  exists spec, returns st out st' spec.
Proof.
  intros HA HB [H | [H | H]].
  - destruct (add_rep st self other lsA lsB A B HA HB)
      as (out' & st1 & Hcall & Hret).
    rewrite Hcall in H. injection H as <- <-. by eexists.
  - destruct (subtract_rep st self other lsA lsB A B HA HB)
      as (out' & st1 & Hcall & Hret).
    rewrite Hcall in H. injection H as <- <-. by eexists.
  - destruct (multiply_rep st self other lsA lsB A B HA HB)
      as (out' & st1 & Hcall & Hret).
    rewrite Hcall in H. injection H as <- <-. by eexists.
Qed.



(** X12. Writing into the matrix an arithmetic method returned never changes
    the operands: after [result.set_element(r, c, v)] both are still the same
    chains of the same node objects. *)
Theorem set_element_on_result_keeps_operands
    st self other lsA lsB A B result st' r c v :
  rep st self lsA A -> rep st other lsB B ->
  add st self other = Some (inr result, st') \/
  subtract st self other = Some (inr result, st') \/
  multiply st self other = Some (inr result, st') ->
  exists st'',
    set_element st' result r c v = Some st'' /\
    rep st'' self lsA A /\ rep st'' other lsB B.
Proof.
  intros HA HB Hcall.
  destruct (arithmetic_returns _ _ _ _ _ _ _ _ _ HA HB Hcall)
    as (spec & Hn & Hm & Hret).
  destruct spec as [e|R]; [done|].
  destruct Hret as (Hfresh & ls & Hrep & Hnew).
  destruct (set_element_rep st' result ls R r c v Hrep)
    as (st'' & ls'' & Hset & _ & Heff).
  exists st''. split; [done|].
  split.
  - apply (set_element_frame_rep _ _ _ _ _ _ _ _ _ Heff
             (rep_mono _ _ _ _ _ Hn Hm HA)).
    + intros ->. apply Hfresh. exact (rep_self_in_dom _ _ _ _ HA).
    + intros a Ha Hin. apply (Hnew a Hin). exact (rep_in_dom _ _ _ _ _ HA Ha).
  - apply (set_element_frame_rep _ _ _ _ _ _ _ _ _ Heff
             (rep_mono _ _ _ _ _ Hn Hm HB)).
    + intros ->. apply Hfresh. exact (rep_self_in_dom _ _ _ _ HB).
    + intros a Ha Hin. apply (Hnew a Hin). exact (rep_in_dom _ _ _ _ _ HB Ha).
Qed.

Lemma set_element_on_result_keeps_operands_witness :
  exists result st' st'',
    subtract store1 1%positive 2%positive = Some (inr result, st') /\
    set_element st' result 0 0 9 = Some st'' /\
    rep st'' 1%positive [2%positive; 1%positive] matrix1 /\
    rep st'' 2%positive [3%positive] matrix2.
Proof.
  assert (exists result st',
            subtract store1 1%positive 2%positive = Some (inr result, st'))
    as (result & st' & Hcall) by (do 2 eexists; vm_compute; reflexivity).
  destruct (set_element_on_result_keeps_operands store1 1%positive 2%positive
              _ _ matrix1 matrix2 result st' 0 0 9
              rep_store1_matrix1 rep_store1_matrix2
              (or_intror (or_introl Hcall)))
    as (st'' & Hset & H1 & H2).
  by exists result, st', st''.
Defined.

End MoreHeapFacts.

(** ** Facts about the stores a program can build *)

Section ReachFacts.
Import Heap Reach.

(** *** Which matrix objects a call leaves in the store *)

Lemma get_element_same_store st self r c v st' :
  get_element st self r c = Some (v, st') -> st' = st.
Proof.
  unfold get_element. intros H.
  destruct (matrices st !! self); simpl in H; [|done].
  destruct (scan _ _ _ _ _); simpl in H; [|done]. by injection H.
Qed.

Lemma set_element_dom_matrices st self r c v st' :
  set_element st self r c v = Some st' ->
  dom (matrices st') = dom (matrices st).
Proof.
  unfold set_element. destruct (v =? 0); [by intros [= <-]|].
  destruct (matrices st !! self) as [m|] eqn:Hm; simpl; [|done].
  assert ({[self]} ∪ dom (matrices st) = dom (matrices st)) as Hdom.
  { apply subseteq_union_1_L, singleton_subseteq_l, elem_of_dom.
    by eexists. }
  destruct (head m).
  - destruct (advance _ _ _ _ _ _) as [[prev current]|]; simpl; [|done].
    intros [= <-]. simpl. destruct prev; [done|]. by rewrite dom_insert_L.
  - intros [= <-]. simpl. by rewrite dom_insert_L.
Qed.

Lemma copy_loop_dom_matrices fuel st result current st' :
  copy_loop fuel st result current = Some st' ->
  dom (matrices st') = dom (matrices st).
Proof.
  revert st current. induction fuel as [|fuel IH]; intros st current.
  - destruct current; simpl; [done|]. by intros [= <-].
  - destruct current as [a|]; simpl; [|by intros [= <-]].
    destruct (nodes st !! a) as [n|]; simpl; [|done].
    destruct (set_element st result _ _ _) as [st1|] eqn:Hset; simpl; [|done].
    destruct (nodes st1 !! a) as [n1|]; simpl; [|done].
    intros H. rewrite (IH _ _ H). by eapply set_element_dom_matrices.
Qed.

Lemma combine_loop_dom_matrices op fuel st result current st' :
  combine_loop op fuel st result current = Some st' ->
  dom (matrices st') = dom (matrices st).
Proof.
  revert st current. induction fuel as [|fuel IH]; intros st current.
  - destruct current; simpl; [done|]. by intros [= <-].
  - destruct current as [a|]; simpl; [|by intros [= <-]].
    destruct (nodes st !! a) as [n|]; simpl; [|done].
    destruct (get_element st result _ _) as [[v st0]|] eqn:Hget; simpl;
      [|done].
    apply get_element_same_store in Hget as ->.
    destruct (set_element st result _ _ _) as [st1|] eqn:Hset; simpl; [|done].
    destruct (nodes st1 !! a) as [n1|]; simpl; [|done].
    intros H. rewrite (IH _ _ H). by eapply set_element_dom_matrices.
Qed.

Lemma multiply_inner_dom_matrices fuel st result a current st' :
  multiply_inner fuel st result a current = Some st' ->
  dom (matrices st') = dom (matrices st).
Proof.
  revert st current. induction fuel as [|fuel IH]; intros st current.
  - destruct current; simpl; [done|]. by intros [= <-].
  - destruct current as [b|]; simpl; [|by intros [= <-]].
    destruct (nodes st !! a) as [na|]; simpl; [|done].
    destruct (nodes st !! b) as [nb|]; simpl; [|done].
    destruct (col na =? row nb).
    + destruct (get_element st result _ _) as [[v st0]|] eqn:Hget; simpl;
        [|done].
      apply get_element_same_store in Hget as ->.
      destruct (set_element st result _ _ _) as [st1|] eqn:Hset; simpl;
        [|done].
      destruct (nodes st1 !! b) as [nb1|]; simpl; [|done].
      intros H. rewrite (IH _ _ H). by eapply set_element_dom_matrices.
    + simpl. destruct (nodes st !! b) as [nb1|]; simpl; [|done].
      apply IH.
Qed.

Lemma multiply_outer_dom_matrices fuel fuel_inner st result other current st' :
  multiply_outer fuel fuel_inner st result other current = Some st' ->
  dom (matrices st') = dom (matrices st).
Proof.
  revert st current. induction fuel as [|fuel IH]; intros st current.
  - destruct current; simpl; [done|]. by intros [= <-].
  - destruct current as [a|]; simpl; [|by intros [= <-]].
    destruct (matrices st !! other) as [mb|]; simpl; [|done].
    destruct (multiply_inner _ _ _ _ _) as [st1|] eqn:Hin; simpl; [|done].
    destruct (nodes st1 !! a) as [na1|]; simpl; [|done].
    intros H. rewrite (IH _ _ H). by eapply multiply_inner_dom_matrices.
Qed.

Lemma add_sub_dom_matrices op message st self other result st' :
  add_sub op message st self other = Some (inr result, st') ->
  dom (matrices st') = {[result]} ∪ dom (matrices st).
Proof.
  unfold add_sub.
  destruct (matrices st !! self) as [ma|]; simpl; [|done].
  destruct (matrices st !! other) as [mb|]; simpl; [|done].
  destruct (_ || _); [done|]. simpl.
  destruct (_ !! self) as [ma1|]; simpl; [|done].
  destruct (copy_loop _ _ _ _) as [st1|] eqn:Hcopy; simpl; [|done].
  destruct (matrices st1 !! other) as [mb1|]; simpl; [|done].
  destruct (combine_loop _ _ _ _ _) as [st2|] eqn:Hcomb; simpl; [|done].
  intros [= <- <-].
  rewrite (combine_loop_dom_matrices _ _ _ _ _ _ Hcomb).
  rewrite (copy_loop_dom_matrices _ _ _ _ _ Hcopy). simpl.
  by rewrite dom_insert_L.
Qed.

Lemma multiply_dom_matrices st self other result st' :
  multiply st self other = Some (inr result, st') ->
  dom (matrices st') = {[result]} ∪ dom (matrices st).
Proof.
  unfold multiply.
  destruct (matrices st !! self) as [ma|]; simpl; [|done].
  destruct (matrices st !! other) as [mb|]; simpl; [|done].
  destruct (negb _); [done|]. simpl.
  destruct (_ !! self) as [ma1|]; simpl; [|done].
  destruct (multiply_outer _ _ _ _ _ _) as [st1|] eqn:Hout; simpl; [|done].
  intros [= <- <-].
  rewrite (multiply_outer_dom_matrices _ _ _ _ _ _ _ Hout). simpl.
  by rewrite dom_insert_L.
Qed.

(** *** Chains stay finite and apart *)

Lemma well_linked_rep st s m :
  well_linked st -> matrices st !! s = Some m ->
  exists ls M, rep st s ls M.
Proof.
  intros [Hfin _] Hm. destruct (Hfin s m Hm) as (ls & xs & Hch).
  exists ls, (Seq.mkSparseMatrix xs (num_rows m) (num_cols m)).
  exists m. by repeat split.
Qed.

Lemma rep_chain_unique st s ls M m l x :
  rep st s ls M -> matrices st !! s = Some m ->
  chain (nodes st) (head m) l x -> l = ls.
Proof.
  intros (m' & Hm' & Hch & _) Hm Hl. rewrite Hm in Hm'. injection Hm' as <-.
  by destruct (chain_functional _ _ _ _ _ _ Hl Hch).
Qed.

Lemma rep_chain st s ls M m :
  rep st s ls M -> matrices st !! s = Some m ->
  chain (nodes st) (head m) ls (Seq.head M).
Proof.
  intros (m' & Hm' & Hch & _) Hm. rewrite Hm in Hm'. by injection Hm' as <-.
Qed.

Lemma well_linked_apart st s1 s2 l1 l2 M1 M2 a :
  well_linked st -> s1 ≠ s2 ->
  rep st s1 l1 M1 -> rep st s2 l2 M2 -> a ∈ l1 -> a ∉ l2.
Proof.
  intros [_ Hapart] Hne (m1 & Hm1 & Hch1 & _) (m2 & Hm2 & Hch2 & _).
  by eapply Hapart.
Qed.

Lemma rep_unique st s l1 l2 M1 M2 :
  rep st s l1 M1 -> rep st s l2 M2 -> l1 = l2.
Proof.
  intros (m1 & Hm1 & Hch1 & _) H2.
  exact (rep_chain_unique _ _ _ _ _ _ _ H2 Hm1 Hch1).
Qed.

(** Well-linkedness in terms of [rep]. *)
Lemma well_linked_by_rep st :
  (forall s m, matrices st !! s = Some m -> exists ls M, rep st s ls M) ->
  (forall s1 s2 l1 l2 M1 M2 a,
     s1 ≠ s2 -> rep st s1 l1 M1 -> rep st s2 l2 M2 -> a ∈ l1 -> a ∉ l2) ->
  well_linked st.
Proof.
  intros Hfin Hapart. split.
  - intros s m Hm. destruct (Hfin s m Hm) as (ls & M & HM).
    exists ls, (Seq.head M). by eapply rep_chain.
  - intros s1 s2 m1 m2 l1 l2 x1 x2 a Hne Hm1 Hm2 Hl1 Hl2.
    apply (Hapart s1 s2 l1 l2
             (Seq.mkSparseMatrix x1 (num_rows m1) (num_cols m1))
             (Seq.mkSparseMatrix x2 (num_rows m2) (num_cols m2)));
      [done|by exists m1|by exists m2].
Qed.

Lemma well_linked_empty : well_linked (mkStore ∅ ∅).
Proof.
  apply well_linked_by_rep.
  - intros s m. simpl. by rewrite lookup_empty.
  - intros s1 s2 l1 l2 M1 M2 a _ (m & Hm & _). simpl in Hm.
    by rewrite lookup_empty in Hm.
Qed.

(** Where the chain of a matrix object comes from after [set_element] was
    called on [self]. *)
Lemma chain_after_set_element st self lsT M r c v st' ls' s l M' :
  well_linked st ->
  rep st self lsT M ->
  rep st' self ls' (Seq.set_element M r c v) ->
  set_element_effect st self lsT v st' ls' ->
  rep st' s l M' ->
  (s = self /\ l = ls') \/ (s ≠ self /\ exists M0, rep st s l M0).
Proof.
  intros Hwl HT HT' Heff Hs.
  destruct (decide (s = self)) as [->|Hne].
  - left. split; [done|]. by eapply rep_unique.
  - right. split; [done|].
    pose proof Hs as (m & Hm & _).
    rewrite (effect_matrices _ _ _ _ _ _ Heff) in Hm by done.
    destruct (well_linked_rep st s m Hwl Hm) as (l0 & M0 & H0).
    assert (rep st' s l0 M0) as H0'.
    { eapply set_element_frame_rep; [exact Heff|done|done|].
      intros a Ha. by eapply (well_linked_apart st s self). }
    rewrite (rep_unique _ _ _ _ _ _ Hs H0'). by exists M0.
Qed.

Lemma in_chain_after_set_element st self lsT v st' ls' a :
  set_element_effect st self lsT v st' ls' ->
  a ∈ ls' -> a ∈ lsT \/ a ∉ dom (nodes st).
Proof.
  intros Heff Ha. destruct (Z.eq_dec v 0) as [Hv|Hv].
  - destruct (effect_zero _ _ _ _ _ _ Heff Hv) as [_ ->]. by left.
  - destruct (effect_link _ _ _ _ _ _ Heff Hv) as (l1 & l2 & -> & -> & _).
    apply elem_of_app in Ha as [Ha|Ha].
    + left. apply elem_of_app. by left.
    + apply elem_of_cons in Ha as [->|Ha].
      * right. apply is_fresh.
      * left. apply elem_of_app. by right.
Qed.

Lemma well_linked_set_element st self r c v st' :
  well_linked st -> self ∈ dom (matrices st) ->
  set_element st self r c v = Some st' ->
  well_linked st'.
Proof.
  intros Hwl Hself Hset. apply elem_of_dom in Hself as [mT HmT].
  destruct (well_linked_rep st self mT Hwl HmT) as (lsT & M & HT).
  destruct (set_element_rep st self lsT M r c v HT)
    as (st1 & ls' & Hset1 & HT' & Heff).
  rewrite Hset in Hset1. injection Hset1 as <-.
  apply well_linked_by_rep.
  - intros s m Hm. destruct (decide (s = self)) as [->|Hne].
    + by exists ls', (Seq.set_element M r c v).
    + rewrite (effect_matrices _ _ _ _ _ _ Heff) in Hm by done.
      destruct (well_linked_rep st s m Hwl Hm) as (l0 & M0 & H0).
      exists l0, M0.
      eapply set_element_frame_rep; [exact Heff|done|done|].
      intros a Ha. by eapply (well_linked_apart st s self).
  - intros s1 s2 l1 l2 M1 M2 a Hne H1 H2 Ha1 Ha2.
    destruct (chain_after_set_element _ _ _ _ _ _ _ _ _ _ _ _ Hwl HT HT' Heff H1)
      as [[-> ->] | [Hn1 [N1 HN1]]];
    destruct (chain_after_set_element _ _ _ _ _ _ _ _ _ _ _ _ Hwl HT HT' Heff H2)
      as [[-> ->] | [Hn2 [N2 HN2]]]; try done.
    + destruct (in_chain_after_set_element _ _ _ _ _ _ _ Heff Ha1) as [Hin|Hout].
      * by eapply (well_linked_apart st self s2).
      * apply Hout. by eapply rep_in_dom.
    + destruct (in_chain_after_set_element _ _ _ _ _ _ _ Heff Ha2) as [Hin|Hout].
      * by eapply (well_linked_apart st s1 self).
      * apply Hout. by eapply rep_in_dom.
    + by eapply (well_linked_apart st s1 s2).
Qed.

(** A store that grew by one matrix object, whose chain is made of new node
    objects, and is otherwise as before. *)
Lemma well_linked_extend st st' result ls R :
  well_linked st ->
  nodes st ⊆ nodes st' -> matrices st ⊆ matrices st' ->
  dom (matrices st') = {[result]} ∪ dom (matrices st) ->
  rep st' result ls R ->
  (forall a, a ∈ ls -> a ∉ dom (nodes st)) ->
  well_linked st'.
Proof.
  intros Hwl Hn Hm Hdom Hres Hnew.
  assert (forall s l M',
            rep st' s l M' ->
            (s = result /\ l = ls) \/ exists M0, rep st s l M0) as Hfrom.
  { intros s l M' Hs. destruct (decide (s = result)) as [->|Hne].
    - left. split; [done|]. by eapply rep_unique.
    - right. pose proof Hs as (m & Hsm & _).
      assert (s ∈ dom (matrices st)) as Hin.
      { assert (s ∈ dom (matrices st')) as Hin'
          by (apply elem_of_dom; by eexists).
        rewrite Hdom in Hin'. apply elem_of_union in Hin' as [Hin'|Hin'];
          [|done].
        by apply elem_of_singleton in Hin'. }
      apply elem_of_dom in Hin as [m0 Hm0].
      destruct (well_linked_rep st s m0 Hwl Hm0) as (l0 & M0 & H0).
      rewrite (rep_unique _ _ _ _ _ _ Hs (rep_mono _ _ _ _ _ Hn Hm H0)).
      by exists M0. }
  apply well_linked_by_rep.
  - intros s m Hsm. destruct (decide (s = result)) as [->|Hne].
    + by exists ls, R.
    + assert (s ∈ dom (matrices st)) as Hin.
      { assert (s ∈ dom (matrices st')) as Hin'
          by (apply elem_of_dom; by eexists).
        rewrite Hdom in Hin'. apply elem_of_union in Hin' as [Hin'|Hin'];
          [|done].
        by apply elem_of_singleton in Hin'. }
      apply elem_of_dom in Hin as [m0 Hm0].
      destruct (well_linked_rep st s m0 Hwl Hm0) as (l0 & M0 & H0).
      exists l0, M0. by eapply rep_mono.
  - intros s1 s2 l1 l2 M1 M2 a Hne H1 H2 Ha1 Ha2.
    destruct (Hfrom _ _ _ H1) as [[-> ->] | [N1 HN1]];
    destruct (Hfrom _ _ _ H2) as [[-> ->] | [N2 HN2]]; try done.
    + apply (Hnew a Ha1). by eapply rep_in_dom.
    + apply (Hnew a Ha2). by eapply rep_in_dom.
    + by eapply (well_linked_apart st s1 s2).
Qed.

Lemma well_linked_new st r c :
  well_linked st -> well_linked (snd (SparseMatrix_new st r c)).
Proof.
  intros Hwl. pose proof (building_start st r c) as Hb. simpl in Hb.
  destruct Hb as [Hn Hm Hrep Hnew Hres].
  eapply well_linked_extend; try done. simpl. by rewrite dom_insert_L.
Qed.

Lemma well_linked_returns st out st' spec :
  well_linked st -> returns st out st' spec ->
  (forall result, out = inr result ->
     dom (matrices st') = {[result]} ∪ dom (matrices st)) ->
  well_linked st'.
Proof.
  intros Hwl (Hn & Hm & Hret) Hdom.
  destruct spec as [e|R], out as [e'|result]; try done.
  - by destruct Hret as [_ ->].
  - destruct Hret as (Hfresh & ls & Hrep & Hnew).
    eapply well_linked_extend; try done. by apply Hdom.
Qed.

Lemma well_linked_arithmetic st self other out st' :
  well_linked st ->
  self ∈ dom (matrices st) -> other ∈ dom (matrices st) ->
  add st self other = Some (out, st') \/
  subtract st self other = Some (out, st') \/
  multiply st self other = Some (out, st') ->
  well_linked st'.
Proof.
  intros Hwl Hself Hother Hcall.
  apply elem_of_dom in Hself as [mA HmA].
  apply elem_of_dom in Hother as [mB HmB].
  destruct (well_linked_rep st self mA Hwl HmA) as (lsA & A & HA).
  destruct (well_linked_rep st other mB Hwl HmB) as (lsB & B & HB).
  destruct (arithmetic_returns _ _ _ _ _ _ _ _ _ HA HB Hcall)
    as (spec & Hret).
  eapply well_linked_returns; [done|exact Hret|].
  intros result ->. destruct Hcall as [H | [H | H]].
  - by eapply add_sub_dom_matrices.
  - by eapply add_sub_dom_matrices.
  - by eapply multiply_dom_matrices.
Qed.

(** *** Every store a program builds *)

Lemma reachable_well_linked_step st : reachable st -> well_linked st.
Proof.
  induction 1 as [ | st r c _ IH | st self r c v st' _ IH Hself Hset
                 | st self r c v st' _ IH Hself Hget
                 | st self other out st' _ IH Hself Hother Hcall
                 | st self other out st' _ IH Hself Hother Hcall
                 | st self other out st' _ IH Hself Hother Hcall ].
  - apply well_linked_empty.
  - by apply well_linked_new.
  - by eapply well_linked_set_element.
  - by rewrite (get_element_same_store _ _ _ _ _ _ Hget).
  - exact (well_linked_arithmetic st self other out st' IH Hself Hother
             (or_introl Hcall)).
  - exact (well_linked_arithmetic st self other out st' IH Hself Hother
             (or_intror (or_introl Hcall))).
  - exact (well_linked_arithmetic st self other out st' IH Hself Hother
             (or_intror (or_intror Hcall))).
Qed.

(** X13. In every store reached from the empty one by constructor calls and
    method calls, each matrix object heads a finite chain of node objects and
    no node object belongs to the chains of two matrix objects. *)
Theorem reachable_well_linked st : reachable st -> well_linked st.
Proof. apply reachable_well_linked_step. Qed.

(** One more [set_element] call on a closed reachable store. *)
Ltac reach_set_element_step H self r c v :=
  match type of H with
  | reachable ?s =>
      let E := fresh "E" in
      let D := fresh "D" in
      eassert (set_element s self r c v = Some _) as E
        by (vm_compute; reflexivity);
      assert (self ∈ dom (matrices s)) as D
        by (apply elem_of_dom; eexists; vm_compute; reflexivity);
      apply (fun H0 => reach_set_element _ _ _ _ _ _ H0 D E) in H
  end.

Lemma reachable_store1 : reachable store1.
Proof.
  pose proof (reach_new _ 2 2 (reach_new _ 2 2 reach_empty)) as H.
  reach_set_element_step H 1%positive 1 1 7.
  reach_set_element_step H 1%positive 0 0 5.
  reach_set_element_step H 2%positive 0 0 5.
  exact H.
Qed.

Lemma reachable_well_linked_witness : well_linked store1.
Proof. exact (reachable_well_linked store1 reachable_store1). Defined.

(** X14. On every such store, every method call on matrix objects of the
    store returns: no loop runs past the end of a chain or around a cycle,
    and no reference is left dangling. *)
Theorem reachable_calls_return st self other r c v :
  reachable st ->
  self ∈ dom (matrices st) -> other ∈ dom (matrices st) ->
  (exists x, get_element st self r c = Some (x, st)) /\
  (exists st', set_element st self r c v = Some st') /\
  (exists out st', add st self other = Some (out, st')) /\
  (exists out st', subtract st self other = Some (out, st')) /\
  (exists out st', multiply st self other = Some (out, st')).
Proof.
  intros Hreach Hself Hother.
  pose proof (reachable_well_linked_step st Hreach) as Hwl.
  apply elem_of_dom in Hself as [mA HmA].
  apply elem_of_dom in Hother as [mB HmB].
  destruct (well_linked_rep st self mA Hwl HmA) as (lsA & A & HA).
  destruct (well_linked_rep st other mB Hwl HmB) as (lsB & B & HB).
  split; [|split; [|split; [|split]]].
  - eexists. by eapply get_element_rep.
  - destruct (set_element_rep st self lsA A r c v HA) as (st' & _ & H & _).
    by exists st'.
  - destruct (add_rep st self other lsA lsB A B HA HB) as (out & st' & H & _).
    by exists out, st'.
  - destruct (subtract_rep st self other lsA lsB A B HA HB)
      as (out & st' & H & _).
    by exists out, st'.
  - destruct (multiply_rep st self other lsA lsB A B HA HB)
      as (out & st' & H & _).
    by exists out, st'.
Qed.

Lemma reachable_calls_return_witness :
  (exists x, get_element store1 1%positive 0 0 = Some (x, store1)) /\
  (exists st', set_element store1 1%positive 0 0 3 = Some st') /\
  (exists out st', add store1 1%positive 2%positive = Some (out, st')) /\
  (exists out st', subtract store1 1%positive 2%positive = Some (out, st')) /\
  (exists out st', multiply store1 1%positive 2%positive = Some (out, st')).
Proof.
  apply (reachable_calls_return store1 1%positive 2%positive 0 0 3
           reachable_store1);
    apply elem_of_dom; eexists; vm_compute; reflexivity.
Defined.

End ReachFacts.

(** ** Facts about the text form *)

Section FileFacts.
Import Seq Files.

Variable py_strip : string -> string.
Variable py_int : string -> option Z.

(** *** What a load leaves in the matrix *)

Lemma load_entries_invariant (P : SparseMatrix -> Prop) self lines :
  (forall m r c v, P m -> P (set_element m r c v)) ->
  P self -> P (fst (fst (load_entries py_strip py_int self lines))).
Proof.
  intros Hset. revert self. induction lines as [|line lines IH]; intros self HP.
  - done.
  - simpl. destruct (entry_shaped _).
    + destruct (parse_entry _ _) as [[[r c] v]|]; [|done].
      by apply IH, Hset.
    + specialize (IH self HP).
      by destruct (load_entries _ _ _ _) as [[m sk] o].
Qed.

Lemma load_matrix_invariant (P : SparseMatrix -> Prop) self file :
  (forall m r c v, P m -> P (set_element m r c v)) ->
  (forall m z, P m -> P (set_num_rows m z)) ->
  (forall m z, P m -> P (set_num_cols m z)) ->
  P self -> P (fst (fst (load_matrix py_strip py_int self file))).
Proof.
  intros Hset Hrows Hcols HP. unfold load_matrix.
  destruct file as [text|]; [|done].
  destruct (readlines text) as [|line0 [|line1 lines]]; [done|..].
  - destruct (parse_dimension _ _ _); simpl; [done|by apply Hrows].
  - destruct (parse_dimension _ _ line0); simpl; [done|].
    destruct (parse_dimension _ _ line1); simpl; [by apply Hrows|].
    by apply load_entries_invariant, Hcols, Hrows.
Qed.

(** X15. Whatever the file holds, and however the call ends, [load_matrix]
    leaves a chain whose coordinates never decrease and whose values are
    non-zero, if it found one; so does the constructor in every case. *)
Theorem load_matrix_ordered self file matrix_file r c :
  (ordered (head self) ->
   ordered (head (fst (fst (load_matrix py_strip py_int self file))))) /\
  ordered (head (SparseMatrix_init py_strip py_int matrix_file r c)).
Proof.
  assert (forall self file,
            ordered (head self) ->
            ordered (head (fst (fst (load_matrix py_strip py_int self file)))))
    as Hload.
  { intros self' file' Hord.
    apply (load_matrix_invariant (fun m => ordered (head m))); try done.
    intros. by apply ordered_set_element. }
  split; [apply Hload|].
  unfold SparseMatrix_init. destruct matrix_file as [file'|].
  - apply Hload. split; constructor.
  - split; constructor.
Qed.

(** X16. A line that has the shape of an entry but does not parse ends the
    load: the entries of the lines before it stay in the matrix, the lines
    after it are never read, and the call ends in its [ValueError] clause. *)
Theorem load_entries_stops_at_bad_line self before bad after m skipped :
  load_entries py_strip py_int self before = (m, skipped, Loaded) ->
  entry_shaped (py_strip bad) = true ->
  parse_entry py_int (py_strip bad) = None ->
  load_entries py_strip py_int self (before ++ bad :: after) =
  (m, skipped, ParseError).
Proof.
  intros Hbefore Hshape Hparse. revert self m skipped Hbefore.
  induction before as [|line before IH]; intros self m skipped Hbefore.
  - simpl in *. injection Hbefore as <- <-. by rewrite Hshape, Hparse.
  - simpl in *. destruct (entry_shaped (py_strip line)).
    + destruct (parse_entry py_int (py_strip line)) as [[[r c] v]|];
        [|discriminate Hbefore].
      by apply IH.
    + destruct (load_entries _ _ self before) as [[m' sk'] o'] eqn:Hrec.
      injection Hbefore as <- <- ->.
      by rewrite (IH self m' sk' Hrec).
Qed.

(** X17. A line that does not have the shape of an entry is reported and
    otherwise ignored: the matrix and the way the call ends are what they
    would be without the line. *)
Theorem load_entries_skips_unshaped_line self before line after :
  entry_shaped (py_strip line) = false ->
  let with_line :=
    load_entries py_strip py_int self (before ++ line :: after) in
  let without :=
    load_entries py_strip py_int self (before ++ after) in
  fst (fst with_line) = fst (fst without) /\ snd with_line = snd without.
Proof.
  intros Hshape. revert self.
  induction before as [|l before IH]; intros self; simpl.
  - rewrite Hshape.
    by destruct (load_entries _ _ self after) as [[m sk] o].
  - destruct (entry_shaped (py_strip l)).
    + destruct (parse_entry py_int (py_strip l)) as [[[r c] v]|]; [|done].
      apply IH.
    + specialize (IH self). simpl in IH.
      destruct (load_entries _ _ self (before ++ line :: after))
        as [[m1 sk1] o1].
      by destruct (load_entries _ _ self (before ++ after)) as [[m2 sk2] o2].
Qed.

(** *** How a load ends *)

Lemma load_entries_outcome self lines m skipped o :
  load_entries py_strip py_int self lines = (m, skipped, o) ->
  (o = Loaded \/ o = ParseError) /\
  num_rows m = num_rows self /\ num_cols m = num_cols self.
Proof.
  revert self m skipped o.
  induction lines as [|line lines IH]; intros self m skipped o; simpl.
  - intros [= <- <- <-]. split; [by left|done].
  - destruct (entry_shaped _).
    + destruct (parse_entry py_int (py_strip line)) as [[[r c] v]|].
      * intros H. destruct (IH _ _ _ _ H) as (Ho & Hr & Hc).
        split; [done|].
        by rewrite Hr, Hc, num_rows_set_element, num_cols_set_element.
      * intros [= <- <- <-]. split; [by right|done].
    + destruct (load_entries _ _ self lines) as [[m' sk'] o'] eqn:Hrec.
      intros [= <- <- <-]. by apply (IH _ _ _ _ Hrec).
Qed.

Lemma parse_dimension_outcome line e :
  parse_dimension py_strip py_int line = inl e ->
  e = ParseError \/ e = UnexpectedError.
Proof.
  unfold parse_dimension.
  destruct (split_char _ _) as [|p0 [|p1 ps]]; try (intros [= <-]; by right).
  destruct (py_int _); [done|]. intros [= <-]. by left.
Qed.

(** X18. [load_matrix] reports a missing file and nothing else as not found,
    and then leaves the matrix as it was.  When it ends in its last [except]
    clause the chain is as it was.  When it ends normally the first two
    lines both parsed and the dimensions of the matrix are the two numbers
    read from them. *)
Theorem load_matrix_outcome self file m skipped o :
  load_matrix py_strip py_int self file = (m, skipped, o) ->
  (o = FileNotFound <-> file = None) /\
  (o = FileNotFound -> m = self) /\
  (o = UnexpectedError -> head m = head self /\ skipped = []) /\
  (o = Loaded ->
   exists text line0 line1 lines,
     file = Some text /\ readlines text = line0 :: line1 :: lines /\
     parse_dimension py_strip py_int line0 = inr (num_rows m) /\
     parse_dimension py_strip py_int line1 = inr (num_cols m)).
Proof.
  unfold load_matrix. destruct file as [text|].
  2:{ intros [= <- <- <-]. by repeat split. }
  destruct (readlines text) as [|line0 [|line1 lines]] eqn:Hlines.
  - intros [= <- <- <-]. by repeat split.
  - destruct (parse_dimension _ _ line0) as [e|nr] eqn:H0.
    + intros [= <- <- <-].
      destruct (parse_dimension_outcome _ _ H0) as [-> | ->];
        by repeat split.
    + intros [= <- <- <-]. by repeat split.
  - destruct (parse_dimension _ _ line0) as [e|nr] eqn:H0.
    { intros [= <- <- <-].
      destruct (parse_dimension_outcome _ _ H0) as [-> | ->];
        by repeat split. }
    destruct (parse_dimension _ _ line1) as [e|nc] eqn:H1.
    { intros [= <- <- <-].
      destruct (parse_dimension_outcome _ _ H1) as [-> | ->];
        by repeat split. }
    intros Hload.
    destruct (load_entries_outcome _ _ _ _ _ Hload) as (Ho & Hr & Hc).
    simpl in Hr, Hc.
    split; [|split; [|split]].
    + split; [|done]. intros ->. by destruct Ho.
    + intros ->. by destruct Ho.
    + intros ->. by destruct Ho.
    + intros _. exists text, line0, line1, lines.
      by rewrite Hr, Hc.
Qed.

End FileFacts.

(** Witnesses, with the stand-ins for [str.strip] and [int]. *)

Section FileWitnesses.
Import Seq Files.

Lemma load_entries_stops_at_bad_line_witness :
  load_entries strip_newline read_decimal (SparseMatrix_new 2 2)
    (["(0,0,5)"%string; "oops"%string]
       ++ "(1,x,7)"%string :: ["(1,1,9)"%string]) =
  (matrix_of [(0, 0, 5)] 2 2, ["oops"%string], ParseError).
Proof.
  apply (load_entries_stops_at_bad_line strip_newline read_decimal);
    reflexivity.
Defined.

Lemma load_entries_skips_unshaped_line_witness :
  let with_line :=
    load_entries strip_newline read_decimal (SparseMatrix_new 2 2)
      (["(0,0,5)"%string] ++ "# comment"%string :: ["(1,1,9)"%string]) in
  let without :=
    load_entries strip_newline read_decimal (SparseMatrix_new 2 2)
      (["(0,0,5)"%string] ++ ["(1,1,9)"%string]) in
  fst (fst with_line) = fst (fst without) /\ snd with_line = snd without.
Proof.
  apply (load_entries_skips_unshaped_line strip_newline read_decimal).
  reflexivity.
Defined.

Lemma load_matrix_outcome_witness :
  let file :=
    Some ("Rows=2" ++ String newline "Cols=3" ++ String newline "(1,2,4)")%string
  in
  let m := mkSparseMatrix [mkNode 1 2 4] 2 3 in
  (Loaded = FileNotFound <-> file = None) /\
  (Loaded = FileNotFound -> m = SparseMatrix_new 0 0) /\
  (Loaded = UnexpectedError ->
   head m = head (SparseMatrix_new 0 0) /\ @nil string = []) /\
  (Loaded = Loaded ->
   exists text line0 line1 lines,
     file = Some text /\ readlines text = line0 :: line1 :: lines /\
     parse_dimension strip_newline read_decimal line0 = inr (num_rows m) /\
     parse_dimension strip_newline read_decimal line1 = inr (num_cols m)).
Proof.
  apply (load_matrix_outcome strip_newline read_decimal
           (SparseMatrix_new 0 0)).
  reflexivity.
Defined.

End FileWitnesses.

(** ** Saving and loading again *)

Section RoundTrip.
Import Seq Files.
Import Stdlib.Strings.Ascii Stdlib.Strings.String.

Local Open Scope string_scope.
Local Arguments append !_ _ /.

Lemma append_assoc (a b c : string) : (a ++ b) ++ c = a ++ (b ++ c).
Proof. induction a as [|ch a IH]; simpl; [done|]. by rewrite IH. Qed.

Lemma append_empty_r (a : string) : a ++ "" = a.
Proof. induction a as [|ch a IH]; simpl; [done|]. by rewrite IH. Qed.

Lemma numeric_char_plain ch : numeric_char ch = true -> plain_char ch = true.
Proof.
  unfold numeric_char, plain_char. simpl.
  repeat (destruct (Ascii.eqb ch _); [reflexivity|]). done.
Qed.

Lemma numeric_plain s : numeric s = true -> plain s = true.
Proof.
  induction s as [|ch s IH]; simpl; [done|].
  intros H. apply andb_prop in H as [Hch Hs].
  by rewrite (numeric_char_plain _ Hch), IH.
Qed.

Lemma numeric_absent sep s :
  numeric_char sep = false -> numeric s = true -> absent sep s = true.
Proof.
  intros Hsep. induction s as [|ch s IH]; simpl; [done|].
  intros H. apply andb_prop in H as [Hch Hs]. rewrite IH by done.
  destruct (Ascii.eqb_spec ch sep) as [->|]; [congruence|done].
Qed.

Lemma plain_append a b : plain (a ++ b) = plain a && plain b.
Proof.
  induction a as [|ch a IH]; simpl; [done|]. by rewrite IH, andb_assoc.
Qed.

Lemma absent_append sep a b :
  absent sep (a ++ b) = absent sep a && absent sep b.
Proof.
  induction a as [|ch a IH]; simpl; [done|]. by rewrite IH, andb_assoc.
Qed.

Lemma numeric_uint d :
  numeric (DecimalString.NilEmpty.string_of_uint d) = true.
Proof. induction d; simpl; done. Qed.

Lemma numeric_decimal z : numeric (decimal z) = true.
Proof.
  unfold decimal. destruct z as [|p|p]; simpl; [done|..].
  - destruct (Pos.to_uint p); simpl; try done; apply numeric_uint.
  - destruct (Pos.to_uint p); simpl; try done; apply numeric_uint.
Qed.

Lemma read_decimal_decimal z : read_decimal (decimal z) = Some z.
Proof.
  unfold read_decimal, decimal.
  rewrite DecimalString.NilZero.isi.
  - simpl. by rewrite DecimalZ.of_to.
  - destruct z; simpl; try done.
    intros [= H]. by apply (DecimalPos.Unsigned.to_uint_nonnil p).
  - destruct z; simpl; try done.
    intros [= H]. by apply (DecimalPos.Unsigned.to_uint_nonnil p).
Qed.

Lemma strip_newline_line s :
  strip_newline (s ++ String newline "") = s.
Proof.
  induction s as [|ch s IH]; [done|].
  simpl. rewrite IH. by destruct s.
Qed.

(** *** Splitting *)

Lemma split_char_absent sep s :
  absent sep s = true -> split_char sep s = [s].
Proof.
  induction s as [|ch s IH]; simpl; [done|].
  intros H. apply andb_prop in H as [Hch Hs].
  apply negb_true_iff in Hch. rewrite Hch. by rewrite IH.
Qed.

Lemma split_char_append sep a b :
  absent sep a = true ->
  split_char sep (a ++ String sep b) = a :: split_char sep b.
Proof.
  induction a as [|ch a IH]; simpl.
  - intros _. by rewrite Ascii.eqb_refl.
  - intros H. apply andb_prop in H as [Hch Ha].
    apply negb_true_iff in Hch. rewrite Hch. by rewrite IH.
Qed.

Lemma readlines_line a rest :
  absent newline a = true ->
  readlines (a ++ String newline rest) =
  (a ++ String newline "") :: readlines rest.
Proof.
  induction a as [|ch a IH]; simpl.
  - done.
  - intros H. apply andb_prop in H as [Hch Ha].
    apply negb_true_iff in Hch. rewrite Hch. by rewrite IH.
Qed.

Lemma drop_last_append a ch : drop_last (a ++ String ch "") = a.
Proof.
  induction a as [|ch' a IH]; [done|].
  simpl. rewrite IH. by destruct a.
Qed.

Lemma endswith_paren_append a :
  endswith_paren (a ++ String ")"%char "") = true.
Proof.
  induction a as [|ch a IH]; [done|].
  simpl. rewrite IH. by destruct a.
Qed.

(** *** The text of one node *)

Lemma entry_text_body n :
  entry_text n =
  String "("%char
    ((decimal (row n) ++ String comma (decimal (col n) ++
        String comma (decimal (value n)))) ++ String ")"%char "").
Proof.
  unfold entry_text, comma. simpl. f_equal.
  rewrite !append_assoc. simpl. f_equal. f_equal.
  rewrite !append_assoc. by simpl.
Qed.

Lemma entry_line_text n :
  entry_line n = entry_text n ++ String newline "".
Proof.
  unfold entry_line, entry_text. simpl. f_equal.
  rewrite !append_assoc. simpl. f_equal. f_equal.
  rewrite !append_assoc. simpl. f_equal. f_equal.
  rewrite !append_assoc. by simpl.
Qed.

Lemma plain_entry_text n : plain (entry_text n) = true.
Proof.
  unfold entry_text. do 4 (simpl; rewrite ?plain_append).
  by rewrite !(numeric_plain _ (numeric_decimal _)).
Qed.

Lemma absent_newline_entry_text n : absent newline (entry_text n) = true.
Proof.
  unfold entry_text. do 4 (simpl; rewrite ?absent_append).
  by rewrite !(numeric_absent newline _ eq_refl (numeric_decimal _)).
Qed.

Lemma entry_shaped_entry_text n : entry_shaped (entry_text n) = true.
Proof.
  rewrite entry_text_body.
  set (body := decimal (row n) ++ _).
  change (String "("%char (body ++ String ")"%char ""))
    with (String "("%char body ++ String ")"%char "").
  unfold entry_shaped. by rewrite endswith_paren_append.
Qed.

Lemma split_entry_text n :
  split_char comma (inner (entry_text n)) =
  [decimal (row n); decimal (col n); decimal (value n)].
Proof.
  rewrite entry_text_body. simpl. rewrite drop_last_append.
  rewrite !split_char_append, split_char_absent; try done;
    by apply numeric_absent, numeric_decimal.
Qed.

Section WithBuiltins.

Variable py_strip : string -> string.
Variable py_int : string -> option Z.

(** [int] reads back what [str] wrote, and [strip] removes the newline at the
    end of a line made of digits, signs, commas and parentheses. *)
Hypothesis int_of_decimal : forall z, py_int (decimal z) = Some z.
Hypothesis strip_plain_line :
  forall s, plain s = true -> py_strip (s ++ String newline "") = s.

Lemma parse_entry_entry_text n :
  parse_entry py_int (entry_text n) = Some (row n, col n, value n).
Proof.
  unfold parse_entry. fold comma. rewrite split_entry_text. simpl.
  by rewrite !int_of_decimal.
Qed.

Lemma load_entries_entry_lines self l :
  load_entries py_strip py_int self (map entry_line l) =
  (copy_into self l, [], Loaded).
Proof.
  revert self. induction l as [|n l IH]; intros self; [done|].
  simpl. rewrite entry_line_text, strip_plain_line by apply plain_entry_text.
  rewrite entry_shaped_entry_text, parse_entry_entry_text.
  apply IH.
Qed.

Lemma parse_dimension_line (name : string) z :
  absent "="%char name = true ->
  parse_dimension py_strip py_int
    (name ++ String "="%char (decimal z ++ String newline "")) = inr z.
Proof.
  intros Hname. unfold parse_dimension.
  rewrite split_char_append by done.
  rewrite split_char_absent.
  - rewrite strip_plain_line by apply numeric_plain, numeric_decimal.
    by rewrite int_of_decimal.
  - rewrite absent_append.
    by rewrite (numeric_absent "="%char _ eq_refl (numeric_decimal z)).
Qed.

Lemma concat_cons (x : string) xs :
  String.concat "" (x :: xs) = x ++ String.concat "" xs.
Proof. destruct xs; simpl; [by rewrite append_empty_r|done]. Qed.

Lemma readlines_entry_lines l :
  readlines (String.concat "" (map entry_line l)) = map entry_line l.
Proof.
  induction l as [|n l IH]; [done|].
  change (map entry_line (n :: l)) with (entry_line n :: map entry_line l).
  rewrite concat_cons, entry_line_text, append_assoc. simpl.
  rewrite readlines_line by apply absent_newline_entry_text.
  by rewrite IH.
Qed.

Lemma save_to_file_shape m :
  save_to_file m =
  ("Rows" ++ String "="%char (decimal (num_rows m))) ++
  String newline
    (("Cols" ++ String "="%char (decimal (num_cols m))) ++
     String newline (String.concat "" (map entry_line (head m)))).
Proof.
  unfold save_to_file. simpl. do 5 f_equal.
  rewrite !append_assoc. by simpl.
Qed.

Lemma readlines_save_to_file m :
  readlines (save_to_file m) =
  ("Rows" ++ String "="%char (decimal (num_rows m) ++ String newline ""))
  :: ("Cols" ++ String "="%char (decimal (num_cols m) ++ String newline ""))
  :: map entry_line (head m).
Proof.
  rewrite save_to_file_shape.
  rewrite readlines_line.
  2:{ rewrite absent_append. simpl.
      by rewrite (numeric_absent newline _ eq_refl (numeric_decimal _)). }
  rewrite readlines_line.
  2:{ rewrite absent_append. simpl.
      by rewrite (numeric_absent newline _ eq_refl (numeric_decimal _)). }
  rewrite readlines_entry_lines.
  rewrite !append_assoc. by simpl.
Qed.

Lemma load_saved m self :
  load_matrix py_strip py_int self (Some (save_to_file m)) =
  (copy_into (set_num_cols (set_num_rows self (num_rows m)) (num_cols m))
     (head m),
   [], Loaded).
Proof.
  unfold load_matrix. rewrite readlines_save_to_file.
  rewrite !parse_dimension_line by done.
  apply load_entries_entry_lines.
Qed.

(** The first loop of [add] and [subtract], and a reload, go through the
    nodes in chain order with [set_element]: at each cell the last node with
    a non-zero value is the one that ends up in front. *)
Lemma get_copy_into_last l res r c :
  get_element (copy_into res l) r c =
  from_option value (get_element res r c)
    (find (fun n => at_coord r c n && negb (value n =? 0)%Z) (rev l)).
Proof.
  induction l as [|n l IH] using rev_ind; [done|].
  unfold copy_into in *. rewrite fold_left_app, rev_unit. simpl.
  rewrite get_set_element, IH. unfold at_coord.
  destruct (value n =? 0)%Z; simpl; [by rewrite andb_false_r|].
  rewrite andb_true_r. by destruct (_ && _).
Qed.



End WithBuiltins.

(** The stand-ins meet the two assumptions. *)



End RoundTrip.
